(** * BusTub buffer-pool substrate: LRU-K replacer and extendible hash table

    A shallow embedding of
    - [LRUKReplacer] (src/include/buffer/lru_k_replacer.h and
      src/buffer/lru_k_replacer.cpp), and
    - [ExtendibleHashTable] (src/container/hash/extendible_hash_table.cpp),
    together with the properties stated about them in the specification.

    Conventions.  [size_t] values are integers in [Z] and every [size_t]
    operation that can leave the range has its reduction modulo 2^64 written
    out ([wrap64]).  A [std::vector] is a [list]; [v[i]] is the stdpp lookup
    [v !! i] and an out-of-range index is reported, not defaulted.  A failed
    [BUSTUB_ASSERT] (assertions enabled) stops the call; the state reached at
    that point is kept in the outcome so that it can be talked about. *)

From Stdlib Require Import ZArith Lia Bool.
From stdpp Require Import base numbers option list.

Local Open Scope Z_scope.

(** ** Part I: the LRU-K replacer *)

Module LRUK.

Definition SIZE_MAX : Z := 2 ^ 64 - 1.

(** Arithmetic on [size_t] is modulo 2^64. *)
Definition wrap64 (x : Z) : Z := x mod 2 ^ 64.

(** [struct FrameInfo]. *)
Record FrameInfo := mkFrameInfo {
  frame_id : Z;
  accesses : list Z;
  evictable : bool
}.

(** The data members of [class LRUKReplacer] (the latch aside). *)
Record LRUKReplacer := mkLRUKReplacer {
  current_timestamp_ : Z;
  curr_size_ : Z;
  replacer_size_ : Z;
  k_ : Z;
  frames_ : list FrameInfo
}.

(** How a call ends: normally, with the new state and a result; by a failed
    [BUSTUB_ASSERT], with the state the object had when the assertion fired;
    or by indexing a vector out of range. *)
Inductive outcome (A : Type) : Type :=
| Ok (s : LRUKReplacer) (a : A)
| Abort (s : LRUKReplacer)
| Undefined.
Arguments Ok {A} s a.
Arguments Abort {A} s.
Arguments Undefined {A}.

(** The constructor; [now] is what [std::time(nullptr)] returned. *)
Definition LRUKReplacer_new (now num_frames k : Z) : LRUKReplacer :=
  {| current_timestamp_ := wrap64 now;
     curr_size_ := 0;
     replacer_size_ := num_frames;
     k_ := k;
     frames_ := [] |}.

Definition set_timestamp (s : LRUKReplacer) (t : Z) : LRUKReplacer :=
  {| current_timestamp_ := t;
     curr_size_ := curr_size_ s;
     replacer_size_ := replacer_size_ s;
     k_ := k_ s;
     frames_ := frames_ s |}.

Definition set_frames (s : LRUKReplacer) (n : Z) (fs : list FrameInfo)
  : LRUKReplacer :=
  {| current_timestamp_ := current_timestamp_ s;
     curr_size_ := n;
     replacer_size_ := replacer_size_ s;
     k_ := k_ s;
     frames_ := fs |}.

(** [FindInternal]: the position of the first frame with the given id. *)
Fixpoint find_from (fs : list FrameInfo) (fid : Z) (i : nat) : option nat :=
  match fs with
  | [] => None
  | f :: fs' => if frame_id f =? fid then Some i else find_from fs' fid (S i)
  end.

Definition FindInternal (s : LRUKReplacer) (fid : Z) : option nat :=
  find_from (frames_ s) fid 0.

Definition RemoveInternal (s : LRUKReplacer) (fid : Z) : outcome unit :=
  match FindInternal s fid with
  | None => Ok s tt
  | Some index =>
      match frames_ s !! index with
      | None => Undefined
      | Some f =>
          if evictable f
          then Ok (set_frames s (wrap64 (curr_size_ s - 1))
                     (delete index (frames_ s))) tt
          else Abort s
      end
  end.

Definition with_evictable (b : bool) (f : FrameInfo) : FrameInfo :=
  {| frame_id := frame_id f; accesses := accesses f; evictable := b |}.

Definition SetEvictableInternal (s : LRUKReplacer) (fid : Z)
    (set_evictable : bool) : outcome unit :=
  match FindInternal s fid with
  | None => Abort s
  | Some index =>
      match frames_ s !! index with
      | None => Undefined
      | Some f =>
          let n :=
            if negb (evictable f) && set_evictable
            then wrap64 (curr_size_ s + 1)
            else if evictable f && negb set_evictable
                 then wrap64 (curr_size_ s - 1)
                 else curr_size_ s in
          Ok (set_frames s n
                (<[index := with_evictable set_evictable f]> (frames_ s))) tt
      end
  end.

Definition push_access (t : Z) (f : FrameInfo) : FrameInfo :=
  {| frame_id := frame_id f;
     accesses := accesses f ++ [t];
     evictable := evictable f |}.

Definition RecordAccessInternal (s : LRUKReplacer) (fid : Z) : outcome unit :=
  let s1 := set_timestamp s (wrap64 (current_timestamp_ s + 1)) in
  match FindInternal s1 fid with
  | Some index =>
      Ok (set_frames s1 (curr_size_ s1)
            (alter (push_access (current_timestamp_ s1)) index (frames_ s1))) tt
  | None =>
      if Z.of_nat (length (frames_ s1)) <? replacer_size_ s1
      then
        let fs := frames_ s1 ++ [mkFrameInfo fid [] false] in
        let index := (length fs - 1)%nat in
        Ok (set_frames s1 (curr_size_ s1)
              (alter (push_access (current_timestamp_ s1)) index fs)) tt
      else Abort s1
  end.

(** The loop of [EvictInternal] carries [distance], [found] and the cell
    [*frame_id]. *)
Definition scan_state : Type := Z * bool * Z.

(** One iteration of the loop body, for the frame [f]. *)
Definition EvictVisit (now k : Z) (st : scan_state) (f : FrameInfo)
  : option scan_state :=
  let '(distance, found, out) := st in
  if negb (evictable f) then Some st
  else
    let n := Z.of_nat (length (accesses f)) in
    if n <? k then Some (SIZE_MAX, true, frame_id f)
    else
      match accesses f !! Z.to_nat (wrap64 (n - k)) with
      | None => None
      | Some a =>
          if wrap64 (now - a) >? distance
          then
            match accesses f !! Z.to_nat (wrap64 (k - 1)) with
            | None => None
            | Some a' => Some (wrap64 (now - a'), true, frame_id f)
            end
          else Some (distance, true, out)
      end.

Fixpoint EvictScan (now k : Z) (fs : list FrameInfo) (st : scan_state)
  : option scan_state :=
  match fs with
  | [] => Some st
  | f :: fs' =>
      match EvictVisit now k st f with
      | None => None
      | Some st' => EvictScan now k fs' st'
      end
  end.

(** [EvictInternal]; [out0] is what the caller's [*frame_id] holds on entry.
    The frames are visited from [rbegin()] to [rend()]. *)
Definition EvictInternal (s : LRUKReplacer) (out0 : Z) : outcome (Z * bool) :=
  let s1 := set_timestamp s (wrap64 (current_timestamp_ s + 1)) in
  match EvictScan (current_timestamp_ s1) (k_ s1) (reverse (frames_ s1))
          (0, false, out0) with
  | None => Undefined
  | Some (_, found, out) =>
      if found
      then match RemoveInternal s1 out with
           | Ok s2 _ => Ok s2 (out, true)
           | Abort s2 => Abort s2
           | Undefined => Undefined
           end
      else Ok s1 (out, false)
  end.

(** The public member functions take the latch and call the internal ones. *)
Definition Evict := EvictInternal.
Definition RecordAccess := RecordAccessInternal.
Definition SetEvictable := SetEvictableInternal.
Definition Remove := RemoveInternal.
Definition Size (s : LRUKReplacer) : Z := curr_size_ s.

(** Calls of the public interface and their sequential composition. *)
Inductive call : Type :=
| CRecordAccess (fid : Z)
| CSetEvictable (fid : Z) (b : bool)
| CRemove (fid : Z)
| CEvict (out0 : Z).

Definition forget {A} (o : outcome A) : outcome unit :=
  match o with
  | Ok s _ => Ok s tt
  | Abort s => Abort s
  | Undefined => Undefined
  end.

Definition step (s : LRUKReplacer) (c : call) : outcome unit :=
  match c with
  | CRecordAccess fid => RecordAccess s fid
  | CSetEvictable fid b => SetEvictable s fid b
  | CRemove fid => Remove s fid
  | CEvict out0 => forget (Evict s out0)
  end.

Fixpoint run (s : LRUKReplacer) (cs : list call) : outcome unit :=
  match cs with
  | [] => Ok s tt
  | c :: cs' =>
      match step s c with
      | Ok s' _ => run s' cs'
      | o => o
      end
  end.

(** The number of tracked frames whose flag is set. *)
Definition count_evictable (fs : list FrameInfo) : nat :=
  length (filter (λ f, evictable f = true) fs).

(** The state an outcome carries, if any. *)
Definition state_of {A} (o : outcome A) : option LRUKReplacer :=
  match o with
  | Ok s _ => Some s
  | Abort s => Some s
  | Undefined => None
  end.

(** The size counter is the number of evictable frames, and the tracked
    frames fit the capacity. *)
Definition size_inv (s : LRUKReplacer) : Prop :=
  curr_size_ s = Z.of_nat (count_evictable (frames_ s))
  /\ Z.of_nat (length (frames_ s)) <= replacer_size_ s
  /\ replacer_size_ s < 2 ^ 64.

(** The parameters of the constructor stay, and the frames fit. *)
Definition within_capacity (num_frames k : Z) (s : LRUKReplacer) : Prop :=
  replacer_size_ s = num_frames /\ k_ s = k
  /\ Z.of_nat (length (frames_ s)) <= num_frames.

(** The ids of the tracked frames, in tracking order. *)
Definition ids (fs : list FrameInfo) : list Z := frame_id <$> fs.

(** The backward k-distance as the specification defines it: [None] stands
    for +infinity, otherwise the clock minus the k-th most recent access. *)
Definition spec_backward_k_distance (now k : Z) (f : FrameInfo) : option Z :=
  let n := Z.of_nat (length (accesses f)) in
  if n <? k then None
  else match accesses f !! Z.to_nat (n - k) with
       | Some a => Some (now - a)
       | None => Some 0
       end.

(** Order on distances, [None] being +infinity. *)
Definition dist_le (d e : option Z) : Prop :=
  match d, e with
  | _, None => True
  | None, Some _ => False
  | Some x, Some y => x <= y
  end.

(** The victim rule as the specification states it: [Evict] returns an
    evictable frame whose backward k-distance, taken at the clock value of
    the call, is largest among the evictable frames. *)
Definition evicts_max_distance (s : LRUKReplacer) (out0 : Z) : Prop :=
  let now := wrap64 (current_timestamp_ s + 1) in
  exists v s',
    Evict s out0 = Ok s' (frame_id v, true)
    /\ v ∈ frames_ s /\ evictable v = true
    /\ forall h, h ∈ frames_ s -> evictable h = true ->
         dist_le (spec_backward_k_distance now (k_ s) h)
                 (spec_backward_k_distance now (k_ s) v).

(** An evictable frame with fewer than [k] recorded accesses. *)
Definition underfull (k : Z) (f : FrameInfo) : Prop :=
  evictable f = true /\ Z.of_nat (length (accesses f)) < k.

(** The most recent access of a frame, for the specification's tie-break. *)
Definition spec_most_recent (f : FrameInfo) : option Z := last (accesses f).

(** The tie-break as the specification states it: among the frames at
    +infinity, [Evict] returns one whose most recent access is earliest. *)
Definition evicts_least_recent_underfull (s : LRUKReplacer) (out0 : Z)
  : Prop :=
  exists v s',
    Evict s out0 = Ok s' (frame_id v, true)
    /\ v ∈ frames_ s /\ underfull (k_ s) v
    /\ forall h a b, h ∈ frames_ s -> underfull (k_ s) h ->
         spec_most_recent v = Some a -> spec_most_recent h = Some b -> a <= b.

(** The failure rule as the specification states it: the call stops at the
    capacity check with the object exactly as it was. *)
Definition fails_without_mutation (s : LRUKReplacer) (fid : Z) : Prop :=
  RecordAccess s fid = Abort s.

(** *** Concrete histories *)

(** [k = 1], two frames, each accessed twice in turn, both evictable. *)
Definition twice_each_calls : list call :=
  [CRecordAccess 1; CRecordAccess 2; CRecordAccess 1; CRecordAccess 2;
   CSetEvictable 1 true; CSetEvictable 2 true].

Definition twice_each : LRUKReplacer :=
  {| current_timestamp_ := 1700000004;
     curr_size_ := 2;
     replacer_size_ := 2;
     k_ := 1;
     frames_ := [mkFrameInfo 1 [1700000001; 1700000003] true;
                 mkFrameInfo 2 [1700000002; 1700000004] true] |}.

(** [k = 3]: frame 1 is accessed, then frame 2, then frame 1 again. *)
Definition revisit_calls : list call :=
  [CRecordAccess 1; CRecordAccess 2; CRecordAccess 1;
   CSetEvictable 1 true; CSetEvictable 2 true].

Definition revisit : LRUKReplacer :=
  {| current_timestamp_ := 1700000003;
     curr_size_ := 2;
     replacer_size_ := 2;
     k_ := 3;
     frames_ := [mkFrameInfo 1 [1700000001; 1700000003] true;
                 mkFrameInfo 2 [1700000002] true] |}.

(** One tracked frame, accessed once and still pinned. *)
Definition pinned : LRUKReplacer :=
  {| current_timestamp_ := 1700000001;
     curr_size_ := 0;
     replacer_size_ := 2;
     k_ := 2;
     frames_ := [mkFrameInfo 7 [1700000001] false] |}.

(** An evictable frame in a replacer built with [k = 0]. *)
Definition zero_k : LRUKReplacer :=
  {| current_timestamp_ := 1700000001;
     curr_size_ := 1;
     replacer_size_ := 2;
     k_ := 0;
     frames_ := [mkFrameInfo 7 [1700000001] true] |}.

(** What the scan of [EvictInternal] has established so far: either nothing
    was found and the bound is still 0, or the cell holds the id of an
    evictable frame among [all]. *)
Definition scan_valid (all : list FrameInfo) (st : scan_state) : Prop :=
  let '(distance, found, out) := st in
  (found = false /\ distance = 0)
  \/ (found = true
      /\ exists f, f ∈ all /\ evictable f = true /\ frame_id f = out).

End LRUK.

(** ** Part II: the extendible hash table *)

Module EHT.

(** [std::hash<K>()(key)], a [size_t]. *)
Class Hash (K : Type) := hash : K -> Z.

(** How a call ends: by returning; by not returning normally (the
    [std::out_of_range] of [at], a shift of an [int] by 31 or more, a
    dangling bucket pointer); or, for the model of a recursive call, with the
    recursion budget used up. *)
Inductive result (A : Type) : Type :=
| Done (a : A)
| Fault
| OutOfFuel.
Arguments Done {A} a.
Arguments Fault {A}.
Arguments OutOfFuel {A}.

Definition bind {A B} (r : result A) (f : A -> result B) : result B :=
  match r with
  | Done a => f a
  | Fault => Fault
  | OutOfFuel => OutOfFuel
  end.

Notation "x <- r ;; k" := (bind r (fun x => k))
  (at level 100, r at next level, right associativity).

(** [v.at(i)] for a [size_t] index. *)
Definition at_ {A} (l : list A) (i : Z) : result A :=
  match l !! Z.to_nat i with
  | Some x => Done x
  | None => Fault
  end.

Section table.
Context {K V : Type} `{EqDecision K} `{Hash K}.

(** [class Bucket]: the capacity, the local depth and the entries. *)
Record Bucket := mkBucket {
  size_ : Z;
  depth_ : Z;
  list_ : list (K * V)
}.

Definition set_list (b : Bucket) (l : list (K * V)) : Bucket :=
  {| size_ := size_ b; depth_ := depth_ b; list_ := l |}.

(** The data members of [class ExtendibleHashTable] (the latch aside).  A
    [std::shared_ptr<Bucket>] is the address of a bucket in [store], the
    buckets that [std::make_shared] has allocated so far; two directory slots
    that hold the same address share one bucket object. *)
Record ExtendibleHashTable := mkTable {
  global_depth_ : Z;
  bucket_size_ : Z;
  num_buckets_ : Z;
  dir_ : list nat;
  store : list Bucket
}.

(** The constructor.  Its one bucket is built with the default depth 0. *)
Definition ExtendibleHashTable_new (bucket_size : Z) : ExtendibleHashTable :=
  {| global_depth_ := 0;
     bucket_size_ := bucket_size;
     num_buckets_ := 1;
     dir_ := [0%nat];
     store := [mkBucket bucket_size 0 []] |}.

(** [IndexOf].  [1 << global_depth_] is a shift of an [int]; it has a value
    for depths 0 to 30 only. *)
Definition IndexOf (t : ExtendibleHashTable) (key : K) : result Z :=
  if (0 <=? global_depth_ t) && (global_depth_ t <? 31)
  then Done (Z.land (hash key) (Z.shiftl 1 (global_depth_ t) - 1))
  else Fault.

(** *** Bucket *)

(** The scan of [Bucket::Find]: the value of the first entry with the key. *)
Fixpoint list_find (l : list (K * V)) (key : K) : option V :=
  match l with
  | [] => None
  | (k, v) :: l' => if decide (k = key) then Some v else list_find l' key
  end.

Definition Bucket_Find (b : Bucket) (key : K) : option V :=
  list_find (list_ b) key.

(** The scan of [Bucket::Remove]: erase the first entry with the key. *)
Fixpoint list_erase (l : list (K * V)) (key : K) : option (list (K * V)) :=
  match l with
  | [] => None
  | (k, v) :: l' =>
      if decide (k = key) then Some l'
      else match list_erase l' key with
           | Some l'' => Some ((k, v) :: l'')
           | None => None
           end
  end.

Definition Bucket_Remove (b : Bucket) (key : K) : Bucket * bool :=
  match list_erase (list_ b) key with
  | Some l' => (set_list b l', true)
  | None => (b, false)
  end.

(** The scan of [Bucket::Insert]: assign the value of the first entry with
    the key. *)
Fixpoint list_assign (l : list (K * V)) (key : K) (value : V)
  : option (list (K * V)) :=
  match l with
  | [] => None
  | (k, v) :: l' =>
      if decide (k = key) then Some ((k, value) :: l')
      else match list_assign l' key value with
           | Some l'' => Some ((k, v) :: l'')
           | None => None
           end
  end.

(** Modelled from the spec: [Bucket::IsFull], [Bucket::GetDepth] and
    [Bucket::IncrementDepth] are defined in extendible_hash_table.h, which is
    not among the sources.  A bucket holds up to [bucket_size] pairs, so it is
    full when it has no free capacity; the depth accessors read and increment
    the local depth. *)
Definition IsFull (b : Bucket) : bool :=
  size_ b <=? Z.of_nat (length (list_ b)).

Definition GetDepth (b : Bucket) : Z := depth_ b.

Definition IncrementDepth (b : Bucket) : Bucket :=
  {| size_ := size_ b; depth_ := depth_ b + 1; list_ := list_ b |}.

Definition Bucket_Insert (b : Bucket) (key : K) (value : V) : Bucket * bool :=
  match list_assign (list_ b) key value with
  | Some l' => (set_list b l', true)
  | None =>
      if IsFull b then (b, false)
      else (set_list b (list_ b ++ [(key, value)]), true)
  end.

(** *** Table *)

Definition set_store (t : ExtendibleHashTable) (st : list Bucket)
  : ExtendibleHashTable :=
  {| global_depth_ := global_depth_ t;
     bucket_size_ := bucket_size_ t;
     num_buckets_ := num_buckets_ t;
     dir_ := dir_ t;
     store := st |}.

(** Dereferencing a bucket pointer. *)
Definition deref (t : ExtendibleHashTable) (p : nat) : result Bucket :=
  match store t !! p with
  | Some b => Done b
  | None => Fault
  end.

Definition Find (t : ExtendibleHashTable) (key : K) : result (option V) :=
  index <- IndexOf t key ;;
  if Z.of_nat (length (dir_ t)) <=? index then Done None
  else
    p <- at_ (dir_ t) index ;;
    b <- deref t p ;;
    Done (Bucket_Find b key).

Definition Remove (t : ExtendibleHashTable) (key : K)
  : result (ExtendibleHashTable * bool) :=
  index <- IndexOf t key ;;
  if Z.of_nat (length (dir_ t)) <=? index then Done (t, false)
  else
    p <- at_ (dir_ t) index ;;
    b <- deref t p ;;
    let '(b', removed) := Bucket_Remove b key in
    Done (set_store t (<[p := b']> (store t)), removed).

(** The introspection functions.  [GetLocalDepth] takes an [int] that
    [dir_.at] receives as a [size_t]. *)
Definition GetGlobalDepth (t : ExtendibleHashTable) : Z := global_depth_ t.

Definition GetLocalDepth (t : ExtendibleHashTable) (dir_index : Z)
  : result Z :=
  p <- at_ (dir_ t) (dir_index mod 2 ^ 64) ;;
  b <- deref t p ;;
  Done (GetDepth b).

Definition GetNumBuckets (t : ExtendibleHashTable) : Z := num_buckets_ t.

(** The block of [Insert] guarded by [bucket->GetDepth() == global_depth_]:
    the depth grows by one and every slot is pushed once more, in order. *)
Definition double_directory (t : ExtendibleHashTable) : ExtendibleHashTable :=
  {| global_depth_ := global_depth_ t + 1;
     bucket_size_ := bucket_size_ t;
     num_buckets_ := num_buckets_ t;
     dir_ := dir_ t ++ dir_ t;
     store := store t |}.

(** Modelled from the spec: [RedistributeBucket] is declared in
    extendible_hash_table.h and defined in no source file at hand.  It is
    called after the depth of the bucket at [p] has been incremented.  A
    sibling with the same local depth is created; every entry of the old
    bucket is rehashed at that depth and goes to the sibling when the
    differentiating bit of its hash (bit [depth - 1]) is set; every slot that
    held [p] and whose index has that bit set is repointed to the sibling. *)
Definition RedistributeBucket (t : ExtendibleHashTable) (p : nat)
  : result ExtendibleHashTable :=
  b <- deref t p ;;
  let bit := GetDepth b - 1 in
  let sibling := length (store t) in
  let stay := filter (λ e, Z.testbit (hash e.1) bit = false) (list_ b) in
  let move := filter (λ e, Z.testbit (hash e.1) bit = true) (list_ b) in
  Done {| global_depth_ := global_depth_ t;
          bucket_size_ := bucket_size_ t;
          num_buckets_ := num_buckets_ t + 1;
          dir_ := imap (λ i q, if decide (q = p ∧ Z.testbit (Z.of_nat i) bit = true)
                               then sibling else q) (dir_ t);
          store := <[p := set_list b stay]> (store t)
                   ++ [mkBucket (bucket_size_ t) (GetDepth b) move] |}.

(** The part of [Insert] after a failed [bucket->Insert]: grow the directory
    if the bucket is at global depth, increment its depth, redistribute. *)
Definition split_bucket (t : ExtendibleHashTable) (p : nat)
  : result ExtendibleHashTable :=
  b <- deref t p ;;
  let t1 := if GetDepth b =? global_depth_ t then double_directory t else t in
  let t2 := set_store t1 (<[p := IncrementDepth b]> (store t1)) in
  RedistributeBucket t2 p.

(** [Insert].  The function calls itself after a split; [fuel] bounds the
    depth of that recursion. *)
Fixpoint Insert (fuel : nat) (t : ExtendibleHashTable) (key : K) (value : V)
  : result ExtendibleHashTable :=
  match fuel with
  | O => OutOfFuel
  | S fuel' =>
      index <- IndexOf t key ;;
      p <- at_ (dir_ t) index ;;
      b <- deref t p ;;
      let '(b', inserted) := Bucket_Insert b key value in
      if inserted then Done (set_store t (<[p := b']> (store t)))
      else
        t' <- split_bucket t p ;;
        Insert fuel' t' key value
  end.

(** *** Histories *)

Inductive call : Type :=
| CInsert (key : K) (value : V)
| CFind (key : K)
| CRemove (key : K).

Definition step (fuel : nat) (t : ExtendibleHashTable) (c : call)
  : result ExtendibleHashTable :=
  match c with
  | CInsert key value => Insert fuel t key value
  | CFind key => _ <- Find t key ;; Done t
  | CRemove key => r <- Remove t key ;; Done r.1
  end.

Fixpoint run (fuel : nat) (t : ExtendibleHashTable) (cs : list call)
  : result ExtendibleHashTable :=
  match cs with
  | [] => Done t
  | c :: cs' => t' <- step fuel t c ;; run fuel t' cs'
  end.

(** What the specification says [find] returns after a history, given most
    recent call first: the value of the most recent insert of the key unless
    a remove of the key came after it. *)
Fixpoint last_write (past : list call) (key : K) : option V :=
  match past with
  | [] => None
  | CInsert k v :: past' =>
      if decide (k = key) then Some v else last_write past' key
  | CRemove k :: past' =>
      if decide (k = key) then None else last_write past' key
  | CFind _ :: past' => last_write past' key
  end.

(** *** Well-formed tables *)

(** [x] and [y] have the same low [d] bits. *)
Definition agree (d x y : Z) : Prop := x mod 2 ^ d = y mod 2 ^ d.

#[global] Instance agree_dec d x y : Decision (agree d x y).
Proof. unfold agree. apply _. Defined.

(** The directory slot of a key, when the depth is in range. *)
Definition slot (t : ExtendibleHashTable) (key : K) : nat :=
  Z.to_nat (hash key mod 2 ^ global_depth_ t).

(** The bucket a key is routed to. *)
Definition target (t : ExtendibleHashTable) (key : K) : option Bucket :=
  match dir_ t !! slot t key with
  | Some p => store t !! p
  | None => None
  end.

(** The value found for a key by following the directory. *)
Definition peek (t : ExtendibleHashTable) (key : K) : option V :=
  match target t key with
  | Some b => Bucket_Find b key
  | None => None
  end.

Record wf (t : ExtendibleHashTable) : Prop := {
  wf_depth0 : 0 <= global_depth_ t;
  wf_length : Z.of_nat (length (dir_ t)) = 2 ^ global_depth_ t;
  wf_live : forall i p, dir_ t !! i = Some p -> is_Some (store t !! p);
  wf_local : forall i p b,
    dir_ t !! i = Some p -> store t !! p = Some b ->
    0 <= depth_ b <= global_depth_ t;
  wf_size : forall p b, store t !! p = Some b -> size_ b = bucket_size_ t;
  wf_nodup : forall p b, store t !! p = Some b -> NoDup ((list_ b).*1);
  wf_keys : forall i p b e,
    dir_ t !! i = Some p -> store t !! p = Some b -> e ∈ list_ b ->
    agree (depth_ b) (hash e.1) (Z.of_nat i);
  wf_alias : forall i j p b,
    dir_ t !! i = Some p -> dir_ t !! j = Some p -> store t !! p = Some b ->
    agree (depth_ b) (Z.of_nat i) (Z.of_nat j)
}.

(** The table after the bucket [b] at [p], of depth [depth_ b] before the
    increment, has been split on bit [depth_ b]. *)
Definition split_at (t : ExtendibleHashTable) (p : nat) (b : Bucket)
  : ExtendibleHashTable :=
  {| global_depth_ := global_depth_ t;
     bucket_size_ := bucket_size_ t;
     num_buckets_ := num_buckets_ t + 1;
     dir_ := imap (λ i q,
                   if decide (q = p ∧ Z.testbit (Z.of_nat i) (depth_ b) = true)
                   then length (store t) else q) (dir_ t);
     store :=
       <[p := mkBucket (size_ b) (depth_ b + 1)
                (filter (λ e, Z.testbit (hash e.1) (depth_ b) = false)
                   (list_ b))]> (store t)
       ++ [mkBucket (bucket_size_ t) (depth_ b + 1)
             (filter (λ e, Z.testbit (hash e.1) (depth_ b) = true)
                (list_ b))] |}.

(** No bucket holds more entries than its capacity. *)
Definition fits (t : ExtendibleHashTable) : Prop :=
  forall p b, store t !! p = Some b ->
    Z.of_nat (length (list_ b)) <= size_ b.

(** The entries of the target bucket, other than the key's own, whose hash
    has the same low [D] bits as the key's. *)
Definition rivals (D : Z) (t : ExtendibleHashTable) (key : K)
  : list (K * V) :=
  match target t key with
  | Some b =>
      filter (λ e, e.1 <> key ∧ agree D (hash e.1) (hash key)) (list_ b)
  | None => []
  end.

End table.

Arguments Bucket : clear implicits.
Arguments ExtendibleHashTable : clear implicits.
Arguments call : clear implicits.

(** [std::hash<int>] converts the key to [size_t]. *)
#[global] Instance int_hash : Hash Z := λ k, k mod 2 ^ 64.

(** *** Concrete tables, for [ExtendibleHashTable<int, int>] *)

(** Three inserts into buckets of two entries, then a remove and an
    overwrite. *)
Definition demo_calls : list (call Z Z) :=
  [CInsert 1 10; CInsert 2 20; CInsert 3 30; CRemove 2; CInsert 1 11].

(** The table those calls build: one split, two buckets of depth 1. *)
Definition demo_table : ExtendibleHashTable Z Z :=
  {| global_depth_ := 1;
     bucket_size_ := 2;
     num_buckets_ := 2;
     dir_ := [0%nat; 1%nat];
     store := [mkBucket 2 1 []; mkBucket 2 1 [(1, 11); (3, 30)]] |}.

(** The table after [Insert(1, 10)] and [Insert(2, 20)] with
    [bucket_size = 2]: one bucket, which is full. *)
Definition full_bucket : Bucket Z Z := mkBucket 2 0 [(1, 10); (2, 20)].

Definition full_table : ExtendibleHashTable Z Z :=
  {| global_depth_ := 0;
     bucket_size_ := 2;
     num_buckets_ := 1;
     dir_ := [0%nat];
     store := [full_bucket] |}.

End EHT.

(** ** Properties of the LRU-K replacer *)

Module LRUKFacts.
Import LRUK.

Lemma wrap64_range x : 0 <= wrap64 x < 2 ^ 64.
Proof. unfold wrap64. apply Z.mod_pos_bound. lia. Qed.

Lemma wrap64_small x : 0 <= x < 2 ^ 64 -> wrap64 x = x.
Proof. intros. unfold wrap64. apply Z.mod_small. lia. Qed.

Lemma wrap64_le x : 0 <= x -> wrap64 x <= x.
Proof. intros. unfold wrap64. apply Z.mod_le; lia. Qed.

(** *** [FindInternal] *)

Lemma find_from_Some fs fid i j :
  find_from fs fid i = Some j ->
  (i <= j)%nat /\ exists f, fs !! (j - i)%nat = Some f /\ frame_id f = fid.
Proof.
  revert i. induction fs as [|g fs IH]; intros i H; simpl in H; [done|].
  destruct (frame_id g =? fid) eqn:E.
  - inversion H; subst. split; [lia|]. exists g.
    replace (j - j)%nat with 0%nat by lia. split; [done|lia].
  - destruct (IH _ H) as (Hle & f & Hf & Hid). split; [lia|]. exists f.
    replace (j - i)%nat with (S (j - S i))%nat by lia. done.
Qed.


Lemma find_from_None fs fid i :
  find_from fs fid i = None -> forall f, f ∈ fs -> frame_id f <> fid.
Proof.
  revert i. induction fs as [|g fs IH]; intros i H f Hin.
  - by apply elem_of_nil in Hin.
  - simpl in H. destruct (frame_id g =? fid) eqn:E; [done|].
    apply elem_of_cons in Hin as [->|Hin]; [lia|by eapply IH].
Qed.

Lemma find_from_first pre f post i :
  (forall g, g ∈ pre -> frame_id g <> frame_id f) ->
  find_from (pre ++ f :: post) (frame_id f) i = Some (i + length pre)%nat.
Proof.
  revert i. induction pre as [|g pre IH]; intros i Hpre; simpl.
  - rewrite Z.eqb_refl. f_equal. lia.
  - destruct (frame_id g =? frame_id f) eqn:E.
    + exfalso. apply (Hpre g); [left|lia].
    + rewrite IH; [f_equal; lia|]. intros h Hh. apply Hpre. by right.
Qed.

(** *** Counting evictable frames *)

Lemma count_evictable_app fs gs :
  count_evictable (fs ++ gs) = (count_evictable fs + count_evictable gs)%nat.
Proof. unfold count_evictable. by rewrite filter_app, length_app. Qed.

Lemma count_evictable_cons f fs :
  count_evictable (f :: fs)
  = ((if evictable f then 1 else 0) + count_evictable fs)%nat.
Proof.
  unfold count_evictable. rewrite filter_cons.
  destruct (evictable f); case_decide; done.
Qed.

Lemma count_evictable_le fs : (count_evictable fs <= length fs)%nat.
Proof. apply length_filter. Qed.

Lemma count_evictable_split fs i f :
  fs !! i = Some f ->
  count_evictable fs
  = (count_evictable (take i fs) + (if evictable f then 1 else 0)
     + count_evictable (drop (S i) fs))%nat.
Proof.
  intros H. rewrite <- (take_drop_middle fs i f H) at 1.
  rewrite count_evictable_app, count_evictable_cons. lia.
Qed.

Lemma count_evictable_delete fs i f :
  fs !! i = Some f ->
  count_evictable fs
  = ((if evictable f then 1 else 0) + count_evictable (delete i fs))%nat.
Proof.
  intros H. rewrite (count_evictable_split fs i f H).
  rewrite delete_take_drop, count_evictable_app. lia.
Qed.

Lemma count_evictable_insert fs i f g :
  fs !! i = Some f ->
  (count_evictable (<[i := g]> fs) + (if evictable f then 1 else 0))%nat
  = (count_evictable fs + (if evictable g then 1 else 0))%nat.
Proof.
  intros H. rewrite (count_evictable_split fs i f H).
  rewrite insert_take_drop by (by eapply lookup_lt_Some).
  rewrite count_evictable_app, count_evictable_cons. lia.
Qed.

Lemma count_evictable_alter t fs i :
  count_evictable (alter (push_access t) i fs) = count_evictable fs.
Proof.
  revert i. induction fs as [|f fs IH]; intros i; [done|].
  destruct i as [|i].
  - change (alter (push_access t) 0%nat (f :: fs)) with (push_access t f :: fs).
    by rewrite !count_evictable_cons.
  - change (alter (push_access t) (S i) (f :: fs))
      with (f :: alter (push_access t) i fs).
    by rewrite !count_evictable_cons, IH.
Qed.

(** *** The size invariant *)

Lemma RemoveInternal_inv s fid s' :
  size_inv s -> state_of (RemoveInternal s fid) = Some s' -> size_inv s'.
Proof.
  intros (Hc & Hl & Hr) H. unfold RemoveInternal in H.
  destruct (FindInternal s fid) as [i|]; [|by inversion H; subst].
  destruct (frames_ s !! i) as [f|] eqn:Hf; [|done].
  destruct (evictable f) eqn:Ev; [|by inversion H; subst].
  inversion H; subst; clear H. unfold size_inv; simpl.
  pose proof (count_evictable_delete _ _ _ Hf) as Hd. rewrite Ev in Hd.
  pose proof (lookup_lt_Some _ _ _ Hf) as Hlt.
  pose proof (length_delete (frames_ s) i (mk_is_Some _ _ Hf)) as Hlen.
  pose proof (count_evictable_le (delete i (frames_ s))) as Hle.
  rewrite Hc, Hd. split; [|split; [lia|done]].
  rewrite wrap64_small; lia.
Qed.

Lemma SetEvictableInternal_inv s fid b s' :
  size_inv s -> state_of (SetEvictableInternal s fid b) = Some s' -> size_inv s'.
Proof.
  intros (Hc & Hl & Hr) H. unfold SetEvictableInternal in H.
  destruct (FindInternal s fid) as [i|]; [|by inversion H; subst].
  destruct (frames_ s !! i) as [f|] eqn:Hf; [|done].
  inversion H; subst; clear H. unfold size_inv; simpl.
  pose proof (count_evictable_insert _ _ _ (with_evictable b f) Hf) as Hi.
  pose proof (count_evictable_split _ _ _ Hf) as Hs.
  pose proof (count_evictable_le (<[i:=with_evictable b f]> (frames_ s))) as Hle.
  rewrite length_insert in *. simpl in Hi.
  split; [|split; [lia|done]].
  destruct (evictable f), b; simpl; rewrite ?wrap64_small; lia.
Qed.

Lemma RecordAccessInternal_inv s fid s' :
  size_inv s -> state_of (RecordAccessInternal s fid) = Some s' -> size_inv s'.
Proof.
  intros (Hc & Hl & Hr) H. unfold RecordAccessInternal in H. simpl in H.
  destruct (FindInternal _ fid) as [i|].
  - inversion H; subst; clear H. unfold size_inv; simpl.
    by rewrite count_evictable_alter, length_alter.
  - destruct (Z.of_nat (length (frames_ s)) <? replacer_size_ s) eqn:E;
      inversion H; subst; clear H; unfold size_inv; simpl; [|done].
    rewrite count_evictable_alter, length_alter, count_evictable_app, length_app.
    simpl. unfold count_evictable at 2. simpl. split; [lia|]. split; [lia|done].
Qed.

Lemma set_timestamp_inv s t : size_inv s -> size_inv (set_timestamp s t).
Proof. done. Qed.

Lemma EvictInternal_inv s out0 s' :
  size_inv s -> state_of (EvictInternal s out0) = Some s' -> size_inv s'.
Proof.
  intros Hs H. unfold EvictInternal in H.
  destruct (EvictScan _ _ _ _) as [[[d found] out]|]; [|done].
  destruct found; [|by inversion H; subst; apply set_timestamp_inv].
  apply (RemoveInternal_inv (set_timestamp s (wrap64 (current_timestamp_ s + 1)))
           out); [by apply set_timestamp_inv|].
  by destruct (RemoveInternal _ out).
Qed.

Lemma step_inv s c s' :
  size_inv s -> state_of (step s c) = Some s' -> size_inv s'.
Proof.
  intros Hs H. destruct c; simpl in H.
  - by eapply RecordAccessInternal_inv.
  - by eapply SetEvictableInternal_inv.
  - by eapply RemoveInternal_inv.
  - apply (EvictInternal_inv s out0); [done|].
    unfold Evict in H. by destruct (EvictInternal s out0).
Qed.

Lemma run_inv cs : forall s s',
  size_inv s -> state_of (run s cs) = Some s' -> size_inv s'.
Proof.
  induction cs as [|c cs IH]; intros s s' Hs H; simpl in H.
  - by inversion H; subst.
  - destruct (step s c) as [s1 []| s1 |] eqn:E; [| |done].
    + apply (IH s1); [|done]. eapply step_inv; [done|]. by rewrite E.
    + eapply step_inv; [done|]. by rewrite E.
Qed.

Lemma new_inv now num_frames k :
  0 <= num_frames < 2 ^ 64 -> size_inv (LRUKReplacer_new now num_frames k).
Proof. intros. unfold size_inv; simpl. unfold count_evictable. simpl. lia. Qed.

(** C4. After any sequence of [RecordAccess], [SetEvictable], [Remove] and
    [Evict] calls on a freshly constructed replacer, [Size()] is exactly the
    number of tracked frames whose [evictable] flag is set.  This holds for
    the state in which a sequence ends, be it by normal return of the last
    call or at a failed assertion. *)
Theorem size_counts_evictable now num_frames k cs s :
  0 <= num_frames < 2 ^ 64 ->
  state_of (run (LRUKReplacer_new now num_frames k) cs) = Some s ->
  Size s = Z.of_nat (count_evictable (frames_ s)).
Proof.
  intros Hn H. apply (run_inv cs _ s (new_inv now num_frames k Hn)) in H.
  by destruct H.
Qed.

Lemma size_counts_evictable_witness :
  exists s,
    state_of (run (LRUKReplacer_new 1700000000 2 3) revisit_calls) = Some s
    /\ Size s = 2
    /\ Size s = Z.of_nat (count_evictable (frames_ s)).
Proof.
  exists revisit. split; [vm_compute; reflexivity|]. split; [reflexivity|].
  apply (size_counts_evictable 1700000000 2 3 revisit_calls);
    [lia | vm_compute; reflexivity].
Defined.

(** *** The scan of [EvictInternal] *)

Lemma EvictVisit_defined now k st f :
  1 <= k -> is_Some (EvictVisit now k st f).
Proof.
  intros Hk. destruct st as [[d found] out]. unfold EvictVisit.
  destruct (evictable f); simpl; [|by eexists].
  destruct (Z.of_nat (length (accesses f)) <? k) eqn:E; [by eexists|].
  apply Z.ltb_ge in E.
  pose proof (wrap64_le (Z.of_nat (length (accesses f)) - k)) as H1.
  pose proof (wrap64_range (Z.of_nat (length (accesses f)) - k)) as H1'.
  pose proof (wrap64_le (k - 1)) as H2.
  pose proof (wrap64_range (k - 1)) as H2'.
  destruct (lookup_lt_is_Some_2 (accesses f)
              (Z.to_nat (wrap64 (Z.of_nat (length (accesses f)) - k))))
    as [a ->]; [lia|].
  destruct (wrap64 (now - a) >? d); [|by eexists].
  destruct (lookup_lt_is_Some_2 (accesses f) (Z.to_nat (wrap64 (k - 1))))
    as [a' ->]; [lia|]. by eexists.
Qed.

Lemma EvictScan_cons now k f fs st :
  EvictScan now k (f :: fs) st
  = match EvictVisit now k st f with
    | Some st' => EvictScan now k fs st'
    | None => None
    end.
Proof. done. Qed.

Lemma EvictScan_defined now k fs : forall st,
  1 <= k -> is_Some (EvictScan now k fs st).
Proof.
  induction fs as [|f fs IH]; intros st Hk; [by eexists|].
  rewrite EvictScan_cons.
  destruct (EvictVisit_defined now k st f Hk) as [st' ->]. by apply IH.
Qed.

Lemma EvictScan_app now k fs gs st :
  EvictScan now k (fs ++ gs) st
  = match EvictScan now k fs st with
    | Some st' => EvictScan now k gs st'
    | None => None
    end.
Proof.
  revert st. induction fs as [|f fs IH]; intros st; [done|].
  change ((f :: fs) ++ gs) with (f :: (fs ++ gs)). rewrite !EvictScan_cons.
  destruct (EvictVisit now k st f); [apply IH|done].
Qed.

(** Once an underfull frame has set [distance] to [SIZE_MAX], no frame with
    [k] or more accesses replaces it. *)
Lemma EvictScan_saturated now k out fs :
  1 <= k ->
  (forall g, g ∈ fs -> ~ underfull k g) ->
  EvictScan now k fs (SIZE_MAX, true, out) = Some (SIZE_MAX, true, out).
Proof.
  intros Hk. induction fs as [|f fs IH]; intros Hfs; [done|].
  rewrite EvictScan_cons.
  assert (EvictVisit now k (SIZE_MAX, true, out) f = Some (SIZE_MAX, true, out))
    as ->.
  { pose proof (EvictVisit_defined now k (SIZE_MAX, true, out) f Hk) as Hd.
    unfold EvictVisit in *. destruct (evictable f) eqn:Ev; simpl in *; [|done].
    destruct (Z.of_nat (length (accesses f)) <? k) eqn:E.
    { exfalso. apply (Hfs f); [left|]. split; [done|]. by apply Z.ltb_lt. }
    destruct (accesses f !! _) as [a|]; [|by destruct Hd].
    pose proof (wrap64_range (now - a)) as Hr.
    assert ((wrap64 (now - a) >? SIZE_MAX) = false) as ->; [|done].
    unfold SIZE_MAX. rewrite Z.gtb_ltb. apply Z.ltb_ge. lia. }
  apply IH. intros g Hg. apply Hfs. by right.
Qed.

Lemma EvictVisit_underfull now k st f :
  underfull k f -> EvictVisit now k st f = Some (SIZE_MAX, true, frame_id f).
Proof.
  intros [Ev Hlt]. destruct st as [[d found] out]. unfold EvictVisit.
  rewrite Ev; simpl. by apply Z.ltb_lt in Hlt as ->.
Qed.

(** *** Frame ids are tracked at most once *)

Lemma ids_alter t i fs : ids (alter (push_access t) i fs) = ids fs.
Proof.
  unfold ids. revert i. induction fs as [|f fs IH]; intros [|i]; simpl; try done.
  f_equal. apply IH.
Qed.

Lemma RemoveInternal_ids s fid s' :
  NoDup (ids (frames_ s)) -> state_of (RemoveInternal s fid) = Some s' ->
  NoDup (ids (frames_ s')).
Proof.
  intros Hs H. unfold RemoveInternal in H.
  destruct (FindInternal s fid) as [i|]; [|by inversion H; subst].
  destruct (frames_ s !! i) as [f|] eqn:Hf; [|done].
  destruct (evictable f); inversion H; subst; clear H; simpl; [|done].
  unfold ids. rewrite list_fmap_delete.
  eapply sublist_NoDup; [done|apply sublist_delete].
Qed.

Lemma step_ids s c s' :
  NoDup (ids (frames_ s)) -> state_of (step s c) = Some s' ->
  NoDup (ids (frames_ s')).
Proof.
  intros Hs H. destruct c; simpl in H.
  - unfold RecordAccess, RecordAccessInternal in H. simpl in H.
    destruct (FindInternal _ fid) as [i|] eqn:Hfind.
    + inversion H; subst; simpl. by rewrite ids_alter.
    + destruct (_ <? _); inversion H; subst; simpl; [|done].
      rewrite ids_alter. unfold ids. rewrite fmap_app. simpl.
      apply NoDup_app. split; [done|]. split; [|apply NoDup_singleton].
      intros x Hx Hx'. apply list_elem_of_fmap in Hx as (g & -> & Hg).
      apply list_elem_of_singleton in Hx'.
      by apply (find_from_None _ _ _ Hfind g Hg).
  - unfold SetEvictable, SetEvictableInternal in H.
    destruct (FindInternal s fid) as [i|]; [|by inversion H; subst].
    destruct (frames_ s !! i) as [f|] eqn:Hf; [|done].
    inversion H; subst; simpl. unfold ids. rewrite list_fmap_insert. simpl.
    rewrite list_insert_id; [done|]. by rewrite list_lookup_fmap, Hf.
  - by eapply RemoveInternal_ids.
  - unfold Evict, EvictInternal in H.
    destruct (EvictScan _ _ _ _) as [[[d found] out]|]; [|done].
    destruct found; [|by inversion H; subst].
    apply (RemoveInternal_ids
             (set_timestamp s (wrap64 (current_timestamp_ s + 1))) out);
      [done|]. by destruct (RemoveInternal _ out).
Qed.

(** In every state a call sequence reaches, no frame id is tracked twice. *)
Lemma run_ids cs : forall s s',
  NoDup (ids (frames_ s)) -> state_of (run s cs) = Some s' ->
  NoDup (ids (frames_ s')).
Proof.
  induction cs as [|c cs IH]; intros s s' Hs H; simpl in H.
  - by inversion H; subst.
  - destruct (step s c) as [s1 []| s1 |] eqn:E; [| |done].
    + apply (IH s1); [|done]. eapply step_ids; [done|]. by rewrite E.
    + eapply step_ids; [done|]. by rewrite E.
Qed.

(** *** The victim of [Evict] *)

(** C1. The victim is not always a frame of largest backward k-distance.
    With [k = 1], frame 1 accessed at clock values ..01 and ..03 and frame 2 at
    ..02 and ..04, [Evict] runs at clock ..05: frame 1 has distance 2, frame 2
    has distance 1, and [Evict] returns frame 2.  The loop compares
    [accesses[size - k_]] but stores [accesses[k_ - 1]] as the new bound. *)
Theorem evict_not_max_distance :
  run (LRUKReplacer_new 1700000000 2 1) twice_each_calls = Ok twice_each tt
  /\ (exists s', Evict twice_each 0 = Ok s' (2, true))
  /\ spec_backward_k_distance 1700000005 1
       (mkFrameInfo 1 [1700000001; 1700000003] true) = Some 2
  /\ spec_backward_k_distance 1700000005 1
       (mkFrameInfo 2 [1700000002; 1700000004] true) = Some 1
  /\ ~ evicts_max_distance twice_each 0.
Proof.
  split; [vm_compute; reflexivity|].
  split; [eexists; vm_compute; reflexivity|].
  split; [reflexivity|]. split; [reflexivity|].
  intros (v & s' & He & Hv & _ & Hmax).
  assert (exists s0, Evict twice_each 0 = Ok s0 (2, true)) as [s0 Hs0]
    by (eexists; vm_compute; reflexivity).
  assert (frame_id v = 2) as Hid by congruence.
  simpl in Hv. apply elem_of_cons in Hv as [->|Hv]; [done|].
  apply list_elem_of_singleton in Hv as ->.
  pose proof (Hmax (mkFrameInfo 1 [1700000001; 1700000003] true)
                (list_elem_of_here _ _) eq_refl) as Hd.
  vm_compute in Hd. by apply Hd.
Qed.

(** C2 (as stated) fails.  With [k = 3], frame 1 accessed at ..01 and ..03
    and frame 2 at ..02, both frames are at +infinity and frame 2 has the
    earlier most recent access, yet [Evict] returns frame 1. *)
Lemma evict_not_least_recent :
  run (LRUKReplacer_new 1700000000 2 3) revisit_calls = Ok revisit tt
  /\ (exists f g, frames_ revisit = [f; g]
        /\ underfull (k_ revisit) f /\ underfull (k_ revisit) g)
  /\ ~ evicts_least_recent_underfull revisit 0.
Proof.
  split; [vm_compute; reflexivity|]. split.
  { do 2 eexists. split; [reflexivity|]. by split; split. }
  intros (v & s' & He & Hv & _ & Hmin).
  assert (exists s0, Evict revisit 0 = Ok s0 (1, true)) as [s0 Hs0]
    by (eexists; vm_compute; reflexivity).
  assert (frame_id v = 1) as Hid by congruence.
  simpl in Hv. apply elem_of_cons in Hv as [->|Hv].
  - specialize (Hmin (mkFrameInfo 2 [1700000002] true) 1700000003 1700000002).
    assert (1700000003 <= 1700000002); [|lia].
    apply Hmin; [right; left|by split|done|done].
  - apply list_elem_of_singleton in Hv as ->. done.
Qed.

(** C2 (amended).  When some evictable frame has fewer than [k] accesses,
    [Evict] returns the first such frame in the order of [frames_], that is
    the one whose record was created earliest; it removes that frame's
    record, decrements the size and advances the clock by one.  The most
    recent access plays no part. *)
Theorem evict_first_underfull s pre f post out0 :
  frames_ s = pre ++ f :: post ->
  NoDup (ids (frames_ s)) ->
  underfull (k_ s) f ->
  (forall g, g ∈ pre -> ~ underfull (k_ s) g) ->
  Evict s out0
  = Ok {| current_timestamp_ := wrap64 (current_timestamp_ s + 1);
          curr_size_ := wrap64 (curr_size_ s - 1);
          replacer_size_ := replacer_size_ s;
          k_ := k_ s;
          frames_ := pre ++ post |} (frame_id f, true).
Proof.
  intros Hfs Hnd Hf Hpre.
  assert (1 <= k_ s) as Hk by (destruct Hf; lia).
  unfold Evict, EvictInternal. simpl. rewrite Hfs.
  rewrite reverse_app, reverse_cons, <- app_assoc, EvictScan_app.
  destruct (EvictScan_defined (wrap64 (current_timestamp_ s + 1)) (k_ s)
              (reverse post) (0, false, out0) Hk) as [st ->].
  change ([f] ++ reverse pre) with (f :: reverse pre).
  rewrite EvictScan_cons, (EvictVisit_underfull _ _ _ _ Hf).
  rewrite EvictScan_saturated;
    [|done|intros g Hg; apply Hpre; by apply elem_of_reverse].
  unfold RemoveInternal, FindInternal, set_timestamp; simpl. rewrite Hfs.
  rewrite find_from_first.
  - simpl. rewrite list_lookup_middle by done. destruct Hf as [-> _].
    by rewrite delete_middle.
  - intros g Hg Heq. rewrite Hfs in Hnd. unfold ids in Hnd.
    rewrite fmap_app in Hnd. apply NoDup_app in Hnd as (_ & Hnd & _).
    apply (Hnd (frame_id g)); [by apply list_elem_of_fmap_2|].
    rewrite Heq. simpl. left.
Qed.

Lemma evict_first_underfull_witness :
  Evict revisit 0
  = Ok {| current_timestamp_ := 1700000004;
          curr_size_ := 1;
          replacer_size_ := 2;
          k_ := 3;
          frames_ := [mkFrameInfo 2 [1700000002] true] |} (1, true).
Proof.
  apply (evict_first_underfull revisit []
           (mkFrameInfo 1 [1700000001; 1700000003] true)
           [mkFrameInfo 2 [1700000002] true] 0).
  - reflexivity.
  - apply (run_ids revisit_calls (LRUKReplacer_new 1700000000 2 3));
      [constructor | vm_compute; reflexivity].
  - split; [reflexivity | simpl; lia].
  - intros g Hg. by apply elem_of_nil in Hg.
Defined.

(** *** [RecordAccess] at capacity *)

(** C8 (as stated) fails.  In a replacer that tracks [num_frames = 2] frames,
    [RecordAccess] on the untracked id 3 stops at the capacity check, but the
    object is then not as it was: the clock has moved. *)
Lemma record_access_full_moves_clock :
  FindInternal twice_each 3 = None
  /\ Z.of_nat (length (frames_ twice_each)) = replacer_size_ twice_each
  /\ ~ fails_without_mutation twice_each 3.
Proof.
  split; [reflexivity|]. split; [reflexivity|].
  unfold fails_without_mutation. vm_compute. congruence.
Qed.

(** C8 (amended).  In a replacer that already tracks [num_frames] frames,
    [RecordAccess] on an untracked id fails at the capacity check.  At that
    point the tracked frames, the size, the capacity and [k] are as before,
    and the logical clock has been advanced by one: the increment comes
    before the check. *)
Theorem record_access_full_aborts s fid :
  FindInternal s fid = None ->
  replacer_size_ s <= Z.of_nat (length (frames_ s)) ->
  exists s',
    RecordAccess s fid = Abort s'
    /\ frames_ s' = frames_ s
    /\ curr_size_ s' = curr_size_ s
    /\ replacer_size_ s' = replacer_size_ s
    /\ k_ s' = k_ s
    /\ current_timestamp_ s' = wrap64 (current_timestamp_ s + 1).
Proof.
  intros Hfind Hfull.
  exists (set_timestamp s (wrap64 (current_timestamp_ s + 1))).
  split; [|done].
  unfold RecordAccess, RecordAccessInternal, FindInternal in *. simpl.
  rewrite Hfind. by apply Z.ltb_ge in Hfull as ->.
Qed.

Lemma record_access_full_aborts_witness :
  exists s',
    RecordAccess twice_each 3 = Abort s'
    /\ frames_ s' = frames_ twice_each
    /\ curr_size_ s' = curr_size_ twice_each
    /\ replacer_size_ s' = replacer_size_ twice_each
    /\ k_ s' = k_ twice_each
    /\ current_timestamp_ s' = wrap64 (current_timestamp_ twice_each + 1).
Proof.
  apply (record_access_full_aborts twice_each 3); [reflexivity | simpl; lia].
Defined.

End LRUKFacts.

(** ** Properties of the extendible hash table *)

Module EHTFacts.
Import EHT.

(** *** Low bits *)

Lemma pow2_pos d : 0 <= d -> 0 < 2 ^ d.
Proof. intros. apply Z.pow_pos_nonneg; lia. Qed.

Lemma pow2_split d g : 0 <= d <= g -> 2 ^ g = 2 ^ d * 2 ^ (g - d).
Proof. intros. rewrite <- Z.pow_add_r by lia. f_equal. lia. Qed.

Lemma mod_mod_pow2 x d g : 0 <= d <= g -> (x mod 2 ^ g) mod 2 ^ d = x mod 2 ^ d.
Proof.
  intros Hd. apply Z.mod_mod_divide.
  exists (2 ^ (g - d)). rewrite (pow2_split d g Hd). lia.
Qed.

Lemma agree_le d g x y : 0 <= d <= g -> agree g x y -> agree d x y.
Proof.
  unfold agree. intros Hd Hg.
  rewrite <- (mod_mod_pow2 x d g Hd), <- (mod_mod_pow2 y d g Hd). by rewrite Hg.
Qed.

Lemma agree_mod d g x : 0 <= d <= g -> agree d (x mod 2 ^ g) x.
Proof. intros. unfold agree. by apply mod_mod_pow2. Qed.

Lemma agree_shift d g i : 0 <= d <= g -> agree d (i + 2 ^ g) i.
Proof.
  intros Hd. unfold agree. rewrite (pow2_split d g Hd).
  rewrite (Z.mul_comm (2 ^ d)). apply Z_mod_plus_full.
Qed.

Lemma agree_sym d x y : agree d x y -> agree d y x.
Proof. unfold agree. congruence. Qed.

Lemma agree_trans d x y z : agree d x y -> agree d y z -> agree d x z.
Proof. unfold agree. congruence. Qed.

Lemma mod_pow2_succ x d :
  0 <= d -> x mod 2 ^ (d + 1) = x mod 2 ^ d + 2 ^ d * Z.b2z (Z.testbit x d).
Proof.
  intros Hd. rewrite Z.pow_add_r, Z.pow_1_r by lia.
  rewrite Z.rem_mul_r by (pose proof (pow2_pos d Hd); lia).
  by rewrite Z.testbit_spec' by lia.
Qed.

Lemma agree_succ d x y :
  0 <= d ->
  agree (d + 1) x y <-> agree d x y /\ Z.testbit x d = Z.testbit y d.
Proof.
  intros Hd. unfold agree. rewrite !mod_pow2_succ by done.
  pose proof (pow2_pos d Hd) as Hp.
  pose proof (Z.mod_pos_bound x (2 ^ d) Hp) as Hx.
  pose proof (Z.mod_pos_bound y (2 ^ d) Hp) as Hy.
  split.
  - intros He. destruct (Z.testbit x d), (Z.testbit y d); simpl in He;
      split; try done; lia.
  - intros [-> ->]. done.
Qed.

Lemma testbit_mod_pow2 x d g :
  0 <= d < g -> Z.testbit (x mod 2 ^ g) d = Z.testbit x d.
Proof. intros. apply Z.mod_pow2_bits_low. lia. Qed.

Lemma agree_testbit d g x y :
  0 <= d < g -> agree g x y -> Z.testbit x d = Z.testbit y d.
Proof.
  intros Hd Hg. apply (agree_le (d + 1) g) in Hg; [|lia].
  by apply agree_succ in Hg as [_ ?]; [|lia].
Qed.

Lemma mask_mod h g : 0 <= g -> Z.land h (Z.shiftl 1 g - 1) = h mod 2 ^ g.
Proof.
  intros Hg. by rewrite <- Z.land_ones by done.
Qed.

(** The next-depth slot of a hash is the slot at this depth or its copy in
    the upper half. *)
Lemma mod_pow2_succ_cases x g :
  0 <= g ->
  x mod 2 ^ (g + 1) = x mod 2 ^ g \/ x mod 2 ^ (g + 1) = x mod 2 ^ g + 2 ^ g.
Proof.
  intros Hg. rewrite mod_pow2_succ by done.
  destruct (Z.testbit x g); simpl; lia.
Qed.

Section facts.
Context {K V : Type} `{EqDecision K} `{Hash K}.
Implicit Types (l : list (K * V)) (b : Bucket K V) (t : ExtendibleHashTable K V).
Implicit Types (key k : K) (value v : V).

(** *** The scans of a bucket *)

Lemma list_find_None l key : list_find l key = None <-> key ∉ l.*1.
Proof.
  induction l as [|[k v] l IH]; simpl.
  - split; [intros _; apply not_elem_of_nil|done].
  - rewrite not_elem_of_cons. destruct (decide (k = key)) as [->|Hne].
    + split; [done|]. by intros [? _].
    + rewrite IH. split; [by intros ?; split|by intros [_ ?]].
Qed.

Lemma list_find_Some l key v : list_find l key = Some v -> (key, v) ∈ l.
Proof.
  induction l as [|[k w] l IH]; simpl; [done|].
  destruct (decide (k = key)) as [->|Hne].
  - intros [= ->]. left.
  - intros Hf. right. by apply IH.
Qed.

Lemma list_find_snoc l k v key :
  list_find (l ++ [(k, v)]) key
  = match list_find l key with
    | Some x => Some x
    | None => if decide (k = key) then Some v else None
    end.
Proof.
  induction l as [|[k' w] l IH]; simpl; [done|].
  by destruct (decide (k' = key)).
Qed.

Lemma list_assign_None l key value :
  list_assign l key value = None <-> list_find l key = None.
Proof.
  induction l as [|[k v] l IH]; simpl; [done|].
  destruct (decide (k = key)); [done|].
  destruct (list_assign l key value), (list_find l key); split; try done;
    intros Hx; by apply IH in Hx.
Qed.

Lemma list_assign_Some l key value l' :
  list_assign l key value = Some l' ->
  l'.*1 = l.*1
  /\ (forall k, list_find l' k
               = if decide (k = key) then Some value else list_find l k)
  /\ filter (λ e, e.1 <> key) l' = filter (λ e, e.1 <> key) l.
Proof.
  revert l'. induction l as [|[k v] l IH]; intros l'; simpl; [done|].
  destruct (decide (k = key)) as [->|Hne].
  - intros [= <-]. simpl. split; [done|]. split.
    + intros k. destruct (decide (key = k)) as [->|Hk].
      * by rewrite decide_True.
      * by rewrite decide_False by congruence.
    + rewrite !filter_cons. simpl. by rewrite !decide_False by (by intros ?).
  - destruct (list_assign l key value) as [l''|]; [|done].
    intros [= <-]. destruct (IH l'' eq_refl) as (Hk & Hf & Hfl).
    split; [by rewrite !fmap_cons, Hk|]. split.
    + intros k'. simpl. destruct (decide (k = k')) as [->|Hk'].
      * by rewrite decide_False by done.
      * apply Hf.
    + rewrite !filter_cons. simpl. by rewrite Hfl.
Qed.

Lemma list_erase_None l key :
  list_erase l key = None <-> list_find l key = None.
Proof.
  induction l as [|[k v] l IH]; simpl; [done|].
  destruct (decide (k = key)); [done|].
  destruct (list_erase l key), (list_find l key); split; try done;
    intros Hx; by apply IH in Hx.
Qed.

Lemma list_erase_Some l key l' :
  list_erase l key = Some l' ->
  NoDup l.*1 ->
  l' `sublist_of` l
  /\ length l = S (length l')
  /\ forall k, list_find l' k
               = if decide (k = key) then None else list_find l k.
Proof.
  revert l'. induction l as [|[k v] l IH]; intros l'; simpl; [done|].
  intros He Hnd. apply NoDup_cons in Hnd as [Hk Hnd].
  destruct (decide (k = key)) as [->|Hne].
  - injection He as <-. split; [by apply sublist_cons|]. split; [done|].
    intros k. destruct (decide (key = k)) as [->|Hk'].
    + rewrite decide_True by done. by apply list_find_None.
    + by rewrite decide_False by congruence.
  - destruct (list_erase l key) as [l''|]; [|done]. injection He as <-.
    destruct (IH l'' eq_refl Hnd) as (Hs & Hl & Hf).
    split; [by apply sublist_skip|]. split; [simpl; lia|].
    intros k'. simpl. destruct (decide (k = k')) as [->|Hk'].
    + by rewrite decide_False by done.
    + apply Hf.
Qed.

(** A filter that looks at keys only keeps or drops all entries of a key. *)
Lemma list_find_filter (Q : K -> Prop) `{!forall k, Decision (Q k)} l key :
  list_find (filter (λ e, Q e.1) l) key
  = if decide (Q key) then list_find l key else None.
Proof.
  induction l as [|[k v] l IH]; simpl; [by destruct (decide (Q key))|].
  rewrite filter_cons. simpl. destruct (decide (Q k)) as [Hq|Hq]; simpl.
  - destruct (decide (k = key)) as [->|Hne]; [by rewrite decide_True|done].
  - rewrite IH. destruct (decide (k = key)) as [->|Hne]; [|done].
    by rewrite !decide_False by done.
Qed.

Lemma NoDup_keys_sublist l l' :
  l' `sublist_of` l -> NoDup l.*1 -> NoDup l'.*1.
Proof.
  intros Hs Hnd. eapply sublist_NoDup; [done|]. by apply fmap_sublist.
Qed.

Lemma NoDup_keys_filter (P : K * V -> Prop) `{!forall e, Decision (P e)} l :
  NoDup l.*1 -> NoDup (filter P l).*1.
Proof. apply NoDup_keys_sublist, sublist_filter. Qed.

(** *** Routing a key *)

Lemma slot_spec t key :
  0 <= global_depth_ t ->
  Z.of_nat (slot t key) = hash key mod 2 ^ global_depth_ t.
Proof.
  intros. unfold slot. rewrite Z2Nat.id; [done|].
  by apply Z.mod_pos_bound, pow2_pos.
Qed.

Lemma IndexOf_inv t key index :
  IndexOf t key = Done index ->
  0 <= global_depth_ t < 31 /\ index = Z.of_nat (slot t key).
Proof.
  intros Hi. unfold IndexOf in Hi.
  destruct ((0 <=? global_depth_ t) && (global_depth_ t <? 31)) eqn:E;
    [|done].
  apply andb_true_iff in E as [E1 E2].
  apply Z.leb_le in E1. apply Z.ltb_lt in E2. injection Hi as <-.
  split; [lia|]. rewrite mask_mod, slot_spec by lia. done.
Qed.

Lemma IndexOf_Done t key :
  0 <= global_depth_ t < 31 -> IndexOf t key = Done (Z.of_nat (slot t key)).
Proof.
  intros Hg. unfold IndexOf.
  assert ((0 <=? global_depth_ t) && (global_depth_ t <? 31) = true) as ->
    by (apply andb_true_iff; split; [apply Z.leb_le|apply Z.ltb_lt]; lia).
  by rewrite mask_mod, slot_spec by lia.
Qed.

Lemma at_of_nat {A} (l : list A) (i : nat) :
  at_ l (Z.of_nat i) = match l !! i with Some x => Done x | None => Fault end.
Proof. unfold at_. by rewrite Nat2Z.id. Qed.

Lemma slot_lt t key : wf t -> (slot t key < length (dir_ t))%nat.
Proof.
  intros Hw. pose proof (wf_depth0 t Hw) as Hg.
  pose proof (wf_length t Hw) as Hl.
  pose proof (slot_spec t key Hg) as Hs.
  pose proof (Z.mod_pos_bound (hash key) _ (pow2_pos _ Hg)). lia.
Qed.

(** In a well-formed table every key has a target bucket. *)
Lemma target_Some t key :
  wf t ->
  exists p b, dir_ t !! slot t key = Some p /\ store t !! p = Some b
              /\ target t key = Some b.
Proof.
  intros Hw.
  destruct (lookup_lt_is_Some_2 _ _ (slot_lt t key Hw)) as [p Hp].
  destruct (wf_live t Hw _ _ Hp) as [b Hb].
  exists p, b. unfold target. by rewrite Hp.
Qed.

Lemma Find_peek t key :
  wf t -> global_depth_ t < 31 -> Find t key = Done (peek t key).
Proof.
  intros Hw Hg. pose proof (wf_depth0 t Hw).
  destruct (target_Some t key Hw) as (p & b & Hp & Hb & Ht).
  pose proof (slot_lt t key Hw) as Hlt.
  unfold Find, peek. rewrite IndexOf_Done by lia. simpl.
  assert ((Z.of_nat (length (dir_ t)) <=? Z.of_nat (slot t key)) = false)
    as -> by (apply Z.leb_gt; lia).
  rewrite at_of_nat, Hp. simpl. unfold deref. by rewrite Hb, Ht.
Qed.

(** *** Replacing the contents of one bucket *)

Lemma insert_lookup_cases {A} (st : list A) (p q : nat) (x y z : A) :
  st !! p = Some x -> <[p := y]> st !! q = Some z ->
  (q = p /\ z = y) \/ (q <> p /\ st !! q = Some z).
Proof.
  intros Hp Hq. destruct (decide (q = p)) as [->|Hne].
  - left. rewrite list_lookup_insert_eq in Hq by (by eapply lookup_lt_Some).
    split; congruence.
  - right. by rewrite list_lookup_insert_ne in Hq.
Qed.

Lemma wf_update_bucket t i0 p b b' :
  wf t -> dir_ t !! i0 = Some p -> store t !! p = Some b ->
  depth_ b' = depth_ b -> size_ b' = size_ b -> NoDup (list_ b').*1 ->
  (forall e, e ∈ list_ b' -> agree (depth_ b) (hash e.1) (Z.of_nat i0)) ->
  wf (set_store t (<[p := b']> (store t))).
Proof.
  intros Hw Hi0 Hb Hd Hs Hnd Hk.
  constructor; simpl.
  - by apply wf_depth0.
  - by apply wf_length.
  - intros i q Hq. apply lookup_lt_is_Some. rewrite length_insert.
    apply lookup_lt_is_Some. by eapply wf_live.
  - intros i q bq Hq Hbq.
    destruct (insert_lookup_cases _ _ _ _ _ _ Hb Hbq) as [[-> ->]|[_ Hbq']].
    + rewrite Hd. by eapply wf_local.
    + by eapply wf_local.
  - intros q bq Hbq.
    destruct (insert_lookup_cases _ _ _ _ _ _ Hb Hbq) as [[-> ->]|[_ Hbq']].
    + rewrite Hs. by eapply wf_size.
    + by eapply wf_size.
  - intros q bq Hbq.
    destruct (insert_lookup_cases _ _ _ _ _ _ Hb Hbq) as [[-> ->]|[_ Hbq']].
    + done.
    + by eapply wf_nodup.
  - intros i q bq e Hq Hbq He.
    destruct (insert_lookup_cases _ _ _ _ _ _ Hb Hbq) as [[-> ->]|[_ Hbq']].
    + rewrite Hd. eapply agree_trans; [by apply Hk|].
      by eapply (wf_alias t Hw i0 i p b).
    + by eapply wf_keys.
  - intros i j q bq Hi Hj Hbq.
    destruct (insert_lookup_cases _ _ _ _ _ _ Hb Hbq) as [[-> ->]|[_ Hbq']].
    + rewrite Hd. by eapply wf_alias.
    + by eapply wf_alias.
Qed.

(** The target of a key after the bucket at [p] has been replaced. *)
Lemma target_update t p b b' key :
  store t !! p = Some b ->
  target (set_store t (<[p := b']> (store t))) key
  = match dir_ t !! slot t key with
    | Some q => if decide (q = p) then Some b' else store t !! q
    | None => None
    end.
Proof.
  intros Hb. unfold target. simpl.
  change (slot (set_store t (<[p:=b']> (store t))) key) with (slot t key).
  destruct (dir_ t !! slot t key) as [q|]; [|done].
  destruct (decide (q = p)) as [->|Hne].
  - apply list_lookup_insert_eq. by eapply lookup_lt_Some.
  - by apply list_lookup_insert_ne.
Qed.

(** Every entry of a bucket is routed to that bucket. *)
Lemma entry_agrees_key t key p b e :
  wf t -> dir_ t !! slot t key = Some p -> store t !! p = Some b ->
  e ∈ list_ b -> agree (depth_ b) (hash e.1) (hash key).
Proof.
  intros Hw Hp Hb He. pose proof (wf_local t Hw _ _ _ Hp Hb) as Hd.
  eapply agree_trans; [by eapply wf_keys|].
  rewrite slot_spec by (by apply wf_depth0). apply agree_mod. lia.
Qed.

Lemma key_agrees_slot t key p b :
  wf t -> dir_ t !! slot t key = Some p -> store t !! p = Some b ->
  agree (depth_ b) (hash key) (Z.of_nat (slot t key)).
Proof.
  intros Hw Hp Hb. pose proof (wf_local t Hw _ _ _ Hp Hb) as Hd.
  rewrite slot_spec by (by apply wf_depth0). apply agree_sym, agree_mod. lia.
Qed.

(** What a key finds after the bucket at [p] has been replaced. *)
Lemma peek_update t p b b' key :
  store t !! p = Some b ->
  peek (set_store t (<[p := b']> (store t))) key
  = match dir_ t !! slot t key with
    | Some q => if decide (q = p) then Bucket_Find b' key else peek t key
    | None => None
    end.
Proof.
  intros Hb. unfold peek. rewrite (target_update t p b b' key Hb).
  unfold target. destruct (dir_ t !! slot t key) as [q|]; [|done].
  by destruct (decide (q = p)).
Qed.

(** *** Doubling the directory *)

Lemma lookup_double {A} (l : list A) i x :
  (l ++ l) !! i = Some x ->
  exists i', l !! i' = Some x /\ (i = i' \/ i = (i' + length l)%nat).
Proof.
  intros [Hi|[Hle Hi]]%lookup_app_Some.
  - exists i. auto.
  - exists (i - length l)%nat. split; [done|]. right. lia.
Qed.

Lemma double_slot t key :
  wf t ->
  slot (double_directory t) key = slot t key
  \/ slot (double_directory t) key = (slot t key + length (dir_ t))%nat.
Proof.
  intros Hw. pose proof (wf_depth0 t Hw) as Hg.
  pose proof (wf_length t Hw) as Hl.
  pose proof (slot_spec t key Hg) as Hs.
  pose proof (slot_spec (double_directory t) key) as Hs'. simpl in Hs'.
  specialize (Hs' ltac:(lia)).
  destruct (mod_pow2_succ_cases (hash key) (global_depth_ t) Hg); [left|right];
    lia.
Qed.

Lemma double_target t key :
  wf t -> target (double_directory t) key = target t key.
Proof.
  intros Hw. unfold target. simpl.
  pose proof (slot_lt t key Hw) as Hlt.
  destruct (double_slot t key Hw) as [-> | ->].
  - by rewrite lookup_app_l.
  - rewrite lookup_app_r by lia.
    by replace (slot t key + length (dir_ t) - length (dir_ t))%nat
      with (slot t key) by lia.
Qed.

Lemma double_wf t : wf t -> wf (double_directory t).
Proof.
  intros Hw. pose proof (wf_depth0 t Hw) as Hg.
  pose proof (wf_length t Hw) as Hl.
  assert (forall i p, (dir_ t ++ dir_ t) !! i = Some p ->
            exists i', dir_ t !! i' = Some p
              /\ forall d, 0 <= d <= global_depth_ t ->
                   agree d (Z.of_nat i) (Z.of_nat i')) as Hlk.
  { intros i p (i' & Hi' & [-> | ->])%lookup_double; exists i';
      (split; [done|]); intros d Hd; [done|].
    rewrite Nat2Z.inj_add, Hl. by apply agree_shift. }
  constructor; simpl.
  - lia.
  - rewrite length_app, Nat2Z.inj_add, Hl, Z.pow_add_r by lia. lia.
  - intros i p (i' & Hi' & _)%Hlk. by eapply wf_live.
  - intros i p b (i' & Hi' & _)%Hlk Hb.
    pose proof (wf_local t Hw _ _ _ Hi' Hb). lia.
  - by apply wf_size.
  - by apply wf_nodup.
  - intros i p b e (i' & Hi' & Ha)%Hlk Hb He.
    pose proof (wf_local t Hw _ _ _ Hi' Hb) as Hd.
    eapply agree_trans; [by eapply (wf_keys t Hw i')|].
    by apply agree_sym, Ha.
  - intros i j p b (i' & Hi' & Ha)%Hlk (j' & Hj' & Ha')%Hlk Hb.
    pose proof (wf_local t Hw _ _ _ Hi' Hb) as Hd.
    eapply agree_trans; [by apply Ha|].
    eapply agree_trans; [by eapply (wf_alias t Hw i' j')|].
    by apply agree_sym, Ha'.
Qed.

(** *** Splitting a bucket *)

Lemma Redistribute_split_at t p b :
  store t !! p = Some b ->
  RedistributeBucket (set_store t (<[p := IncrementDepth b]> (store t))) p
  = Done (split_at t p b).
Proof.
  intros Hb. pose proof (lookup_lt_Some _ _ _ Hb) as Hlt.
  unfold RedistributeBucket, deref. simpl.
  rewrite list_lookup_insert_eq by done. simpl.
  unfold split_at, set_list, GetDepth. simpl.
  replace (depth_ b + 1 - 1) with (depth_ b) by lia.
  by rewrite list_insert_insert_eq, length_insert.
Qed.

(** Where a slot of the split table points, in terms of the table before. *)
Lemma split_at_lookup t p b i q' b' :
  wf t -> store t !! p = Some b ->
  dir_ (split_at t p b) !! i = Some q' ->
  store (split_at t p b) !! q' = Some b' ->
  exists q bq,
    dir_ t !! i = Some q /\ store t !! q = Some bq
    /\ ((q = p /\ Z.testbit (Z.of_nat i) (depth_ b) = true
         /\ q' = length (store t)
         /\ b' = mkBucket (bucket_size_ t) (depth_ b + 1)
                   (filter (λ e, Z.testbit (hash e.1) (depth_ b) = true)
                      (list_ b)))
        \/ (q = p /\ Z.testbit (Z.of_nat i) (depth_ b) = false /\ q' = p
            /\ b' = mkBucket (size_ b) (depth_ b + 1)
                      (filter (λ e, Z.testbit (hash e.1) (depth_ b) = false)
                         (list_ b)))
        \/ (q <> p /\ q' = q /\ b' = bq)).
Proof.
  intros Hw Hb Hq' Hb'. simpl in Hq', Hb'.
  rewrite list_lookup_imap in Hq'.
  destruct (dir_ t !! i) as [q|] eqn:Hq; [|done]. simpl in Hq'.
  destruct (wf_live t Hw _ _ Hq) as [bq Hbq].
  pose proof (lookup_lt_Some _ _ _ Hbq) as Hlt.
  pose proof (lookup_lt_Some _ _ _ Hb) as Hltp.
  exists q, bq. split; [done|]. split; [done|].
  destruct (decide (q = p ∧ Z.testbit (Z.of_nat i) (depth_ b) = true))
    as [[-> Hbit]|Hno]; injection Hq' as <-.
  - left. rewrite lookup_app_r in Hb' by (rewrite length_insert; lia).
    rewrite length_insert, Nat.sub_diag in Hb'. simpl in Hb'.
    injection Hb' as <-. done.
  - rewrite lookup_app_l in Hb' by (rewrite length_insert; lia).
    destruct (decide (q = p)) as [->|Hne].
    + right; left. rewrite list_lookup_insert_eq in Hb' by done.
      injection Hb' as <-. split; [done|]. split; [|done].
      destruct (Z.testbit (Z.of_nat i) (depth_ b)); [|done].
      by destruct Hno.
    + right; right. rewrite list_lookup_insert_ne in Hb' by done.
      split; [done|]. split; [done|]. congruence.
Qed.

Lemma split_at_store t p b q b' :
  store t !! p = Some b ->
  store (split_at t p b) !! q = Some b' ->
  (q <> p /\ store t !! q = Some b')
  \/ (size_ b' = size_ b \/ size_ b' = bucket_size_ t)
     /\ exists P : K * V -> Prop, exists _ : forall e, Decision (P e),
          list_ b' = filter P (list_ b).
Proof.
  intros Hb Hq. simpl in Hq. apply lookup_app_Some in Hq as [Hq|[_ Hq]].
  - destruct (insert_lookup_cases _ _ _ _ _ _ Hb Hq) as [[-> ->]|[? ?]];
      [right|by left]. split; [by left|]. by do 2 eexists.
  - right. apply list_lookup_singleton_Some in Hq as [_ <-].
    split; [by right|]. by do 2 eexists.
Qed.

Lemma split_at_wf t i0 p b :
  wf t -> dir_ t !! i0 = Some p -> store t !! p = Some b ->
  depth_ b < global_depth_ t ->
  wf (split_at t p b).
Proof.
  intros Hw Hi0 Hb Hd.
  pose proof (wf_local t Hw _ _ _ Hi0 Hb) as Hd0.
  pose proof (lookup_lt_Some _ _ _ Hb) as Hltp.
  constructor.
  - simpl. by apply wf_depth0.
  - simpl. rewrite length_imap. by apply wf_length.
  - intros i q' Hq'. simpl in Hq'. rewrite list_lookup_imap in Hq'.
    destruct (dir_ t !! i) as [q|] eqn:Hq; [|done]. simpl in Hq'.
    pose proof (lookup_lt_is_Some_1 _ _ (wf_live t Hw _ _ Hq)) as Hlt.
    apply lookup_lt_is_Some. simpl. rewrite length_app, length_insert. simpl.
    destruct (decide _); injection Hq' as <-; lia.
  - intros i q' b' Hq' Hb'.
    destruct (split_at_lookup t p b i q' b' Hw Hb Hq' Hb')
      as (q & bq & Hq & Hbq & [(-> & _ & _ & ->)|[(-> & _ & _ & ->)|(_ & _ & ->)]]);
      simpl; [lia..|]. exact (wf_local t Hw i q bq Hq Hbq).
  - intros q b' Hq.
    destruct (split_at_store t p b q b' Hb Hq) as [[_ Hq']|[[Hs|Hs] _]];
      simpl.
    + exact (wf_size t Hw q b' Hq').
    + rewrite Hs. exact (wf_size t Hw p b Hb).
    + done.
  - intros q b' Hq.
    destruct (split_at_store t p b q b' Hb Hq)
      as [[_ Hq']|[_ (P & HP & ->)]].
    + exact (wf_nodup t Hw q b' Hq').
    + apply NoDup_keys_filter. exact (wf_nodup t Hw p b Hb).
  - intros i q' b' e Hq' Hb' He.
    destruct (split_at_lookup t p b i q' b' Hw Hb Hq' Hb')
      as (q & bq & Hq & Hbq & [(-> & Hbit & _ & ->)|[(-> & Hbit & _ & ->)|(_ & _ & ->)]]);
      simpl in *.
    + apply list_elem_of_filter in He as [He1 He2].
      apply agree_succ; [lia|].
      split; [exact (wf_keys t Hw i p b e Hq Hb He2)|congruence].
    + apply list_elem_of_filter in He as [He1 He2].
      apply agree_succ; [lia|].
      split; [exact (wf_keys t Hw i p b e Hq Hb He2)|congruence].
    + exact (wf_keys t Hw i q bq e Hq Hbq He).
  - intros i j q' b' Hi Hj Hb'.
    pose proof (lookup_lt_is_Some_1 _ _ (wf_live t Hw _ _ Hi0)) as Hp.
    destruct (split_at_lookup t p b i q' b' Hw Hb Hi Hb')
      as (q1 & b1 & Hq1 & Hb1 & C1);
    destruct (split_at_lookup t p b j q' b' Hw Hb Hj Hb')
      as (q2 & b2 & Hq2 & Hb2 & C2).
    pose proof (lookup_lt_Some _ _ _ Hb1) as Hlt1.
    pose proof (lookup_lt_Some _ _ _ Hb2) as Hlt2.
    destruct C1 as [(-> & Hbit1 & E1 & ->)|[(-> & Hbit1 & E1 & ->)|(N1 & E1 & ->)]];
    destruct C2 as [(-> & Hbit2 & E2 & E2')|[(-> & Hbit2 & E2 & E2')|(N2 & E2 & E2')]];
      simpl in *; try lia; try congruence.
    + apply agree_succ; [lia|].
      split; [exact (wf_alias t Hw i j p b Hq1 Hq2 Hb)|congruence].
    + apply agree_succ; [lia|].
      split; [exact (wf_alias t Hw i j p b Hq1 Hq2 Hb)|congruence].
    + subst. eapply (wf_alias t Hw i j); eassumption.
Qed.

(** After the split a key of the split bucket finds the entries that share
    its differentiating bit; other keys find their bucket as before. *)
Lemma split_at_target t i0 p b key :
  wf t -> dir_ t !! i0 = Some p -> store t !! p = Some b ->
  depth_ b < global_depth_ t ->
  (dir_ t !! slot t key = Some p ->
   target (split_at t p b) key
   = Some (mkBucket (size_ b) (depth_ b + 1)
             (filter (λ e, Z.testbit (hash e.1) (depth_ b)
                           = Z.testbit (hash key) (depth_ b)) (list_ b))))
  /\ (forall q, dir_ t !! slot t key = Some q -> q <> p ->
        target (split_at t p b) key = store t !! q).
Proof.
  intros Hw Hi0 Hb Hd.
  pose proof (wf_local t Hw _ _ _ Hi0 Hb) as Hd0.
  pose proof (lookup_lt_Some _ _ _ Hb) as Hltp.
  pose proof (wf_depth0 t Hw) as Hg.
  assert (Z.testbit (Z.of_nat (slot t key)) (depth_ b)
          = Z.testbit (hash key) (depth_ b)) as Hbit
    by (rewrite slot_spec by done; apply testbit_mod_pow2; lia).
  unfold target.
  change (slot (split_at t p b) key) with (slot t key). simpl.
  rewrite list_lookup_imap. split.
  - intros ->. simpl. rewrite Hbit, (wf_size t Hw p b Hb).
    destruct (Z.testbit (hash key) (depth_ b)) eqn:Hk.
    + rewrite decide_True by done.
      rewrite lookup_app_r by (rewrite length_insert; lia).
      by rewrite length_insert, Nat.sub_diag.
    + rewrite decide_False by (by intros [_ ?]).
      rewrite lookup_app_l by (rewrite length_insert; lia).
      by rewrite list_lookup_insert_eq by done.
  - intros q Hq Hne. rewrite Hq. simpl.
    rewrite decide_False by (by intros [? _]).
    pose proof (lookup_lt_is_Some_1 _ _ (wf_live t Hw _ _ Hq)) as Hlt.
    rewrite lookup_app_l by (by rewrite length_insert).
    by rewrite list_lookup_insert_ne.
Qed.

Lemma split_at_peek t i0 p b key :
  wf t -> dir_ t !! i0 = Some p -> store t !! p = Some b ->
  depth_ b < global_depth_ t ->
  peek (split_at t p b) key = peek t key.
Proof.
  intros Hw Hi0 Hb Hd.
  destruct (target_Some t key Hw) as (q & bq & Hq & Hbq & Ht).
  destruct (split_at_target t i0 p b key Hw Hi0 Hb Hd) as [Hsame Hother].
  unfold peek. rewrite Ht. destruct (decide (q = p)) as [->|Hne].
  - rewrite (Hsame Hq). unfold Bucket_Find. simpl.
    pose proof (list_find_filter
                  (λ k, Z.testbit (hash k) (depth_ b)
                        = Z.testbit (hash key) (depth_ b)) (list_ b) key)
      as Hf.
    simpl in Hf. rewrite Hf, decide_True by done. congruence.
  - by rewrite (Hother q Hq Hne), Hbq.
Qed.

(** One round of [split_bucket]: it returns, keeps the table well formed,
    changes what no key finds, and leaves the split bucket's keys in a bucket
    one level deeper that holds a part of the old entries. *)
Lemma split_bucket_spec t i0 p b :
  wf t -> dir_ t !! i0 = Some p -> store t !! p = Some b ->
  exists t',
    split_bucket t p = Done t'
    /\ wf t'
    /\ (forall key, peek t' key = peek t key)
    /\ global_depth_ t'
       = (if depth_ b =? global_depth_ t then global_depth_ t + 1
          else global_depth_ t)
    /\ bucket_size_ t' = bucket_size_ t
    /\ num_buckets_ t' = num_buckets_ t + 1
    /\ (forall key, dir_ t !! slot t key = Some p ->
          exists b', target t' key = Some b'
                     /\ depth_ b' = depth_ b + 1 /\ size_ b' = size_ b
                     /\ list_ b' `sublist_of` list_ b).
Proof.
  intros Hw Hi0 Hb. pose proof (wf_local t Hw _ _ _ Hi0 Hb) as Hd0.
  unfold split_bucket, deref. rewrite Hb. simpl. unfold GetDepth.
  destruct (depth_ b =? global_depth_ t) eqn:E.
  - apply Z.eqb_eq in E.
    pose proof (double_wf t Hw) as Hw2.
    assert (dir_ (double_directory t) !! i0 = Some p) as Hi2
      by (simpl; apply lookup_app_l_Some; done).
    assert (depth_ b < global_depth_ (double_directory t)) as Hd2
      by (simpl; lia).
    rewrite (Redistribute_split_at (double_directory t) p b Hb).
    eexists. split; [done|].
    split; [by eapply split_at_wf|].
    split.
    { intros key. rewrite (split_at_peek _ i0 p b key Hw2 Hi2 Hb Hd2).
      unfold peek. by rewrite double_target. }
    do 3 (split; [done|]).
    intros key Hk.
    assert (dir_ (double_directory t) !! slot (double_directory t) key
            = Some p) as Hk2.
    { pose proof (double_target t key Hw) as Ht. unfold target in Ht.
      rewrite Hk, Hb in Ht.
      destruct (target_Some (double_directory t) key Hw2)
        as (q & bq & Hq & Hbq & _).
      rewrite Hq in Ht. rewrite Hq. f_equal.
      destruct (decide (q = p)) as [->|Hne]; [done|]. exfalso.
      pose proof (double_slot t key Hw) as Hs. simpl in Hq.
      pose proof (slot_lt t key Hw) as Hlt.
      destruct Hs as [Hs|Hs]; rewrite Hs in Hq.
      - rewrite lookup_app_l in Hq by done. congruence.
      - rewrite lookup_app_r in Hq by lia.
        replace (slot t key + length (dir_ t) - length (dir_ t))%nat
          with (slot t key) in Hq by lia. congruence. }
    destruct (split_at_target _ i0 p b key Hw2 Hi2 Hb Hd2) as [Hsame _].
    eexists. split; [by apply Hsame|]. simpl.
    do 2 (split; [done|]). apply sublist_filter.
  - apply Z.eqb_neq in E. assert (depth_ b < global_depth_ t) as Hd by lia.
    rewrite (Redistribute_split_at t p b Hb).
    eexists. split; [done|].
    split; [by eapply split_at_wf|].
    split; [intros key; by eapply split_at_peek|].
    do 3 (split; [done|]).
    intros key Hk.
    destruct (split_at_target _ i0 p b key Hw Hi0 Hb Hd) as [Hsame _].
    eexists. split; [by apply Hsame|]. simpl.
    do 2 (split; [done|]). apply sublist_filter.
Qed.

(** *** [Bucket::Insert] and [Bucket::Remove] *)

Lemma Bucket_Insert_true b key value b' :
  Bucket_Insert b key value = (b', true) ->
  depth_ b' = depth_ b /\ size_ b' = size_ b
  /\ (forall k, Bucket_Find b' k
                = if decide (k = key) then Some value else Bucket_Find b k)
  /\ (NoDup (list_ b).*1 -> NoDup (list_ b').*1)
  /\ (forall e, e ∈ list_ b' ->
        e.1 = key \/ exists e0, e0 ∈ list_ b /\ e0.1 = e.1).
Proof.
  unfold Bucket_Insert, Bucket_Find.
  destruct (list_assign (list_ b) key value) as [l'|] eqn:Ha.
  - intros [= <-]. simpl.
    destruct (list_assign_Some _ _ _ _ Ha) as (Hk & Hf & _).
    do 2 (split; [done|]). split; [done|]. split; [by rewrite Hk|].
    intros e He. right.
    assert (e.1 ∈ (list_ b).*1) as Hin
      by (rewrite <- Hk; by apply list_elem_of_fmap_2).
    apply list_elem_of_fmap in Hin as (e0 & He0 & Hin). by exists e0.
  - destruct (IsFull b); [done|]. intros [= <-]. simpl.
    apply list_assign_None in Ha.
    do 2 (split; [done|]). split; [|split].
    + intros k. rewrite list_find_snoc.
      destruct (decide (k = key)) as [->|Hne].
      * by rewrite Ha, decide_True.
      * rewrite decide_False by congruence. by destruct (list_find _ k).
    + intros Hnd. rewrite fmap_app. apply NoDup_app.
      split; [done|]. split; [|apply NoDup_singleton].
      intros k Hk Hk'. apply list_elem_of_singleton in Hk'. simpl in Hk'.
      subst k. by apply list_find_None in Ha.
    + intros e [He|He]%elem_of_app; [right; by exists e|left].
      by apply list_elem_of_singleton in He as ->.
Qed.

Lemma Bucket_Insert_false b key value b' :
  Bucket_Insert b key value = (b', false) ->
  b' = b /\ IsFull b = true /\ Bucket_Find b key = None.
Proof.
  unfold Bucket_Insert, Bucket_Find.
  destruct (list_assign (list_ b) key value) eqn:Ha; [done|].
  apply list_assign_None in Ha.
  destruct (IsFull b); [|done]. by intros [= <-].
Qed.

Lemma Bucket_Remove_spec b key b' r :
  Bucket_Remove b key = (b', r) ->
  NoDup (list_ b).*1 ->
  depth_ b' = depth_ b /\ size_ b' = size_ b
  /\ list_ b' `sublist_of` list_ b
  /\ (forall k, Bucket_Find b' k
                = if decide (k = key) then None else Bucket_Find b k)
  /\ r = bool_decide (is_Some (Bucket_Find b key)).
Proof.
  unfold Bucket_Remove, Bucket_Find. intros Hr Hnd.
  destruct (list_erase (list_ b) key) as [l'|] eqn:He.
  - injection Hr as <- <-. simpl.
    destruct (list_erase_Some _ _ _ He Hnd) as (Hs & _ & Hf).
    do 2 (split; [done|]). split; [done|]. split; [done|].
    symmetry. apply bool_decide_eq_true.
    destruct (list_find (list_ b) key) eqn:Hfind; [by eexists|].
    apply list_erase_None in Hfind. congruence.
  - injection Hr as <- <-. apply list_erase_None in He.
    do 2 (split; [done|]). split; [done|]. split.
    + intros k. destruct (decide (k = key)) as [->|]; done.
    + symmetry. apply bool_decide_eq_false. rewrite He. by intros [? ?].
Qed.

(** Two keys with different buckets are different keys. *)
Lemma same_key_same_bucket t key k p q :
  dir_ t !! slot t key = Some p -> dir_ t !! slot t k = Some q ->
  q <> p -> k <> key.
Proof. intros Hp Hq Hne ->. congruence. Qed.

(** The successful branch of [Insert]. *)
Lemma Insert_hit t key value p b b' :
  wf t -> dir_ t !! slot t key = Some p -> store t !! p = Some b ->
  Bucket_Insert b key value = (b', true) ->
  wf (set_store t (<[p := b']> (store t)))
  /\ forall k, peek (set_store t (<[p := b']> (store t))) k
               = if decide (k = key) then Some value else peek t k.
Proof.
  intros Hw Hp Hb Hi.
  destruct (Bucket_Insert_true _ _ _ _ Hi) as (Hd & Hs & Hf & Hnd & Hin).
  split.
  - apply (wf_update_bucket t (slot t key) p b b' Hw Hp Hb Hd Hs).
    + apply Hnd. exact (wf_nodup t Hw p b Hb).
    + intros e [He|(e0 & He0 & He)]%Hin.
      * rewrite He. by eapply key_agrees_slot.
      * rewrite <- He. exact (wf_keys t Hw _ p b e0 Hp Hb He0).
  - intros k. rewrite (peek_update t p b b' k Hb).
    destruct (target_Some t k Hw) as (q & bq & Hq & Hbq & Ht).
    rewrite Hq. destruct (decide (q = p)) as [->|Hne].
    + assert (bq = b) as -> by congruence.
      rewrite Hf. unfold peek. by rewrite Ht.
    + by rewrite decide_False by (by eapply same_key_same_bucket).
Qed.

(** *** [Insert], [Remove] and histories *)

Lemma Insert_step n t key value p b :
  0 <= global_depth_ t < 31 ->
  dir_ t !! slot t key = Some p -> store t !! p = Some b ->
  Insert (S n) t key value
  = let '(b', inserted) := Bucket_Insert b key value in
    if inserted then Done (set_store t (<[p := b']> (store t)))
    else bind (split_bucket t p) (fun t' => Insert n t' key value).
Proof.
  intros Hg Hp Hb. simpl. rewrite IndexOf_Done by done. simpl.
  rewrite at_of_nat, Hp. simpl. unfold deref at 1. by rewrite Hb.
Qed.

Lemma Insert_depth_in_range n t key value t' :
  Insert n t key value = Done t' -> 0 <= global_depth_ t < 31.
Proof.
  destruct n as [|n]; [done|]. simpl.
  destruct (IndexOf t key) as [index| |] eqn:Hi; [|done..].
  intros _. by apply IndexOf_inv in Hi as [? _].
Qed.

Lemma Insert_spec key value n : forall t t',
  wf t -> Insert n t key value = Done t' ->
  wf t'
  /\ (forall k, peek t' k = if decide (k = key) then Some value else peek t k)
  /\ global_depth_ t <= global_depth_ t' < 31
  /\ bucket_size_ t' = bucket_size_ t.
Proof.
  induction n as [|n IH]; intros t t' Hw Hi; [done|].
  pose proof (Insert_depth_in_range _ _ _ _ _ Hi) as Hg.
  destruct (target_Some t key Hw) as (p & b & Hp & Hb & _).
  rewrite (Insert_step n t key value p b Hg Hp Hb) in Hi.
  destruct (Bucket_Insert b key value) as [b' [|]] eqn:Hbi.
  - injection Hi as <-.
    destruct (Insert_hit t key value p b b' Hw Hp Hb Hbi) as [Hw' Hpk].
    split; [done|]. split; [done|]. simpl. split; [lia|done].
  - destruct (split_bucket_spec t _ p b Hw Hp Hb)
      as (t1 & Hs & Hw1 & Hpk1 & Hg1 & Hbs1 & _).
    rewrite Hs in Hi. simpl in Hi.
    destruct (IH t1 t' Hw1 Hi) as (Hw' & Hpk & Hg' & Hbs).
    split; [done|]. split.
    + intros k. rewrite Hpk. by rewrite Hpk1.
    + split; [|congruence]. destruct (depth_ b =? global_depth_ t); lia.
Qed.

Lemma Remove_spec t key t' r :
  wf t -> Remove t key = Done (t', r) ->
  wf t'
  /\ (forall k, peek t' k = if decide (k = key) then None else peek t k)
  /\ r = bool_decide (is_Some (peek t key))
  /\ global_depth_ t' = global_depth_ t /\ global_depth_ t < 31
  /\ dir_ t' = dir_ t
  /\ bucket_size_ t' = bucket_size_ t
  /\ num_buckets_ t' = num_buckets_ t.
Proof.
  intros Hw Hr. unfold Remove in Hr.
  destruct (IndexOf t key) as [index| |] eqn:Hi; [|done..].
  apply IndexOf_inv in Hi as [Hg ->]. simpl in Hr.
  pose proof (slot_lt t key Hw) as Hlt.
  assert ((Z.of_nat (length (dir_ t)) <=? Z.of_nat (slot t key)) = false)
    as Hguard by (apply Z.leb_gt; lia).
  rewrite Hguard in Hr.
  destruct (target_Some t key Hw) as (p & b & Hp & Hb & Ht).
  rewrite at_of_nat, Hp in Hr. simpl in Hr. unfold deref in Hr.
  rewrite Hb in Hr. simpl in Hr.
  destruct (Bucket_Remove b key) as [b' r'] eqn:Hbr.
  injection Hr as <- <-.
  destruct (Bucket_Remove_spec b key b' r' Hbr (wf_nodup t Hw p b Hb))
    as (Hd & Hs & Hsub & Hf & Hr').
  split.
  { apply (wf_update_bucket t (slot t key) p b b' Hw Hp Hb Hd Hs).
    - eapply NoDup_keys_sublist; [done|]. exact (wf_nodup t Hw p b Hb).
    - intros e He. apply (wf_keys t Hw _ p b e Hp Hb).
      by eapply elem_of_sublist. }
  split.
  { intros k. rewrite (peek_update t p b b' k Hb).
    destruct (target_Some t k Hw) as (q & bq & Hq & Hbq & Htk).
    rewrite Hq. destruct (decide (q = p)) as [->|Hne].
    - assert (bq = b) as -> by congruence.
      rewrite Hf. unfold peek. by rewrite Htk.
    - by rewrite decide_False by (by eapply same_key_same_bucket). }
  split; [|simpl; repeat split; lia].
  rewrite Hr'. unfold peek. by rewrite Ht.
Qed.

(** A table whose depth [IndexOf] can handle. *)
Lemma new_wf bucket_size :
  wf (ExtendibleHashTable_new bucket_size : ExtendibleHashTable K V).
Proof.
  constructor; simpl.
  - done.
  - done.
  - intros [|i] p Hp; [|done]. injection Hp as <-. by eexists.
  - intros [|i] p b Hp Hb; [|done]. injection Hp as <-.
    injection Hb as <-. simpl. lia.
  - intros [|p] b Hb; [|done]. by injection Hb as <-.
  - intros [|p] b Hb; [|done]. injection Hb as <-. constructor.
  - intros [|i] p b e Hp Hb He; [|done]. injection Hp as <-.
    injection Hb as <-. by apply elem_of_nil in He.
  - intros [|i] [|j] p b Hi Hj Hb; done.
Qed.


Lemma peek_new bucket_size key :
  peek (ExtendibleHashTable_new bucket_size : ExtendibleHashTable K V) key
  = None.
Proof.
  destruct (target_Some _ key (new_wf bucket_size)) as (p & b & Hp & Hb & Ht).
  unfold peek. rewrite Ht. simpl in Hp, Hb.
  destruct (slot _ key) as [|i]; [|done]. injection Hp as <-.
  by injection Hb as <-.
Qed.

Lemma step_spec fuel t c t' :
  wf t -> global_depth_ t < 31 -> step fuel t c = Done t' ->
  wf t'
  /\ global_depth_ t <= global_depth_ t' < 31
  /\ bucket_size_ t' = bucket_size_ t
  /\ forall k past, peek t k = last_write past k ->
                    peek t' k = last_write (c :: past) k.
Proof.
  intros Hw Hg Hs. destruct c as [key value|key|key]; simpl in Hs.
  - destruct (Insert_spec key value fuel t t' Hw Hs) as (Hw' & Hpk & Hg' & Hb).
    do 3 (split; [done|]). intros k past Hk. rewrite Hpk. simpl.
    destruct (decide (k = key)) as [->|Hne].
    + by rewrite decide_True.
    + by rewrite decide_False by congruence.
  - rewrite (Find_peek t key Hw Hg) in Hs. simpl in Hs. injection Hs as <-.
    split; [done|]. split; [lia|]. split; [done|]. by intros k past Hk.
  - destruct (Remove t key) as [[t1 r]| |] eqn:Hr; [|done..].
    simpl in Hs. injection Hs as <-.
    destruct (Remove_spec t key t1 r Hw Hr)
      as (Hw' & Hpk & _ & Hg' & _ & _ & Hb & _).
    split; [done|]. split; [lia|]. split; [done|].
    intros k past Hk. rewrite Hpk. simpl.
    destruct (decide (k = key)) as [->|Hne].
    + by rewrite decide_True.
    + by rewrite decide_False by congruence.
Qed.

Lemma run_spec fuel cs : forall t t',
  wf t -> global_depth_ t < 31 -> run fuel t cs = Done t' ->
  wf t'
  /\ global_depth_ t <= global_depth_ t' < 31
  /\ bucket_size_ t' = bucket_size_ t
  /\ forall k past, peek t k = last_write past k ->
                    peek t' k = last_write (reverse cs ++ past) k.
Proof.
  induction cs as [|c cs IH]; intros t t' Hw Hg Hr; simpl in Hr.
  - injection Hr as <-. split; [done|]. split; [lia|]. split; [done|].
    by intros k past Hk.
  - destruct (step fuel t c) as [t1| |] eqn:Hs; [|done..]. simpl in Hr.
    destruct (step_spec fuel t c t1 Hw Hg Hs) as (Hw1 & Hg1 & Hb1 & Hp1).
    destruct (IH t1 t' Hw1 ltac:(lia) Hr) as (Hw' & Hg' & Hb' & Hp').
    split; [done|]. split; [lia|]. split; [congruence|].
    intros k past Hk. rewrite reverse_cons, <- app_assoc. simpl.
    apply Hp'. by apply Hp1.
Qed.

(** Every table that a history of calls reaches from a new table is well
    formed and has a depth that [IndexOf] can handle. *)
Lemma reachable_wf bucket_size fuel cs t :
  run fuel (ExtendibleHashTable_new bucket_size) cs = Done t ->
  wf t /\ 0 <= global_depth_ t < 31.
Proof.
  intros Hr.
  destruct (run_spec fuel cs _ t (new_wf bucket_size) ltac:(done) Hr)
    as (Hw & Hg & _). split; [done|]. simpl in Hg. lia.
Qed.

(** *** Lookups follow the history *)

(** C3. After any history of inserts, finds and removes on a new table,
    [Find] returns for every key the value of the most recent insert of that
    key, unless a remove of the key came after it; a key never inserted, or
    removed since, is not found.  Splits and directory doubling in between
    change nothing about it. *)
Theorem find_last_write bucket_size fuel cs t key :
  run fuel (ExtendibleHashTable_new bucket_size) cs = Done t ->
  Find t key = Done (last_write (reverse cs) key).
Proof.
  intros Hr.
  destruct (run_spec fuel cs _ t (new_wf bucket_size) ltac:(done) Hr)
    as (Hw & Hg & _ & Hp).
  rewrite (Find_peek t key Hw) by lia. f_equal.
  rewrite <- (app_nil_r (reverse cs)). apply Hp. apply peek_new.
Qed.

(** *** The directory *)

Lemma split_bucket_depth t p t' :
  split_bucket t p = Done t' -> global_depth_ t <= global_depth_ t'.
Proof.
  unfold split_bucket. destruct (deref t p) as [b| |]; [|done..]. simpl.
  unfold RedistributeBucket. destruct (deref _ p) as [b2| |]; [|done..].
  simpl. intros [= <-]. simpl.
  destruct (GetDepth b =? global_depth_ t); simpl; lia.
Qed.

Lemma Insert_depth_mono key value n t t' :
  Insert n t key value = Done t' -> global_depth_ t <= global_depth_ t'.
Proof.
  revert t t'. induction n as [|n IH]; intros t t' Hi; [done|].
  simpl in Hi.
  destruct (IndexOf t key) as [index| |]; [|done..]. simpl in Hi.
  destruct (at_ (dir_ t) index) as [p| |]; [|done..]. simpl in Hi.
  destruct (deref t p) as [b| |] eqn:Hb; [|done..]. simpl in Hi.
  destruct (Bucket_Insert b key value) as [b' [|]].
  - by injection Hi as <-.
  - destruct (split_bucket t p) as [t1| |] eqn:Hs; [|done..]. simpl in Hi.
    apply IH in Hi. apply split_bucket_depth in Hs. lia.
Qed.

(** C5. In every table reached from a new one by inserts, finds and removes,
    the directory has exactly [2 ^ global_depth_] slots, and no further call
    makes the global depth smaller. *)
Theorem directory_length_and_depth bucket_size fuel cs t :
  run fuel (ExtendibleHashTable_new bucket_size) cs = Done t ->
  Z.of_nat (length (dir_ t)) = 2 ^ global_depth_ t
  /\ forall fuel' c t', step fuel' t c = Done t' ->
       global_depth_ t <= global_depth_ t'.
Proof.
  intros Hr. destruct (reachable_wf _ _ _ _ Hr) as [Hw Hg].
  split; [by apply wf_length|].
  intros fuel' c t' Hs.
  destruct (step_spec fuel' t c t' Hw ltac:(lia) Hs) as (_ & Hg' & _). lia.
Qed.

(** C10. In every table reached from a new one, [IndexOf] returns for every
    key an index below the directory length, so [dir_.at] finds a slot there
    and the slot holds a live bucket; the guard [index >= dir_.size()] of
    [Find] and [Remove] is false. *)
Theorem index_in_directory bucket_size fuel cs t key :
  run fuel (ExtendibleHashTable_new bucket_size) cs = Done t ->
  exists index p b,
    IndexOf t key = Done index
    /\ 0 <= index < Z.of_nat (length (dir_ t))
    /\ (Z.of_nat (length (dir_ t)) <=? index) = false
    /\ at_ (dir_ t) index = Done p
    /\ deref t p = Done b.
Proof.
  intros Hr. destruct (reachable_wf _ _ _ _ Hr) as [Hw Hg].
  destruct (target_Some t key Hw) as (p & b & Hp & Hb & _).
  pose proof (slot_lt t key Hw) as Hlt.
  exists (Z.of_nat (slot t key)), p, b.
  split; [by apply IndexOf_Done|]. split; [lia|].
  split; [apply Z.leb_gt; lia|].
  split; [by rewrite at_of_nat, Hp|]. unfold deref. by rewrite Hb.
Qed.

(** C9. [Insert] of a key that the table already holds returns at once: it
    assigns the new value to the key's entry in place, whether or not the
    bucket is full, and splits nothing.  The global depth, the bucket count
    and the directory are as before; every bucket keeps its depth, its
    capacity, its keys in their order and all entries of other keys. *)
Theorem insert_existing_overwrites n t key value v0 :
  Find t key = Done (Some v0) ->
  exists t',
    Insert (S n) t key value = Done t'
    /\ Find t' key = Done (Some value)
    /\ global_depth_ t' = global_depth_ t
    /\ num_buckets_ t' = num_buckets_ t
    /\ bucket_size_ t' = bucket_size_ t
    /\ dir_ t' = dir_ t
    /\ length (store t') = length (store t)
    /\ forall q bq, store t !! q = Some bq ->
         exists bq', store t' !! q = Some bq'
           /\ depth_ bq' = depth_ bq /\ size_ bq' = size_ bq
           /\ (list_ bq').*1 = (list_ bq).*1
           /\ filter (λ e, e.1 <> key) (list_ bq')
              = filter (λ e, e.1 <> key) (list_ bq).
Proof.
  intros Hf. unfold Find in Hf.
  destruct (IndexOf t key) as [index| |] eqn:Hi; [|done..]. simpl in Hf.
  destruct (Z.of_nat (length (dir_ t)) <=? index) eqn:Hguard; [done|].
  destruct (at_ (dir_ t) index) as [p| |] eqn:Hp; [|done..]. simpl in Hf.
  destruct (deref t p) as [b| |] eqn:Hb; [|done..]. simpl in Hf.
  injection Hf as Hf. unfold Bucket_Find in Hf.
  destruct (list_assign (list_ b) key value) as [l'|] eqn:Ha;
    [|apply list_assign_None in Ha; congruence].
  destruct (list_assign_Some _ _ _ _ Ha) as (Hk & Hfind & Hfl).
  assert (store t !! p = Some b) as Hsb
    by (unfold deref in Hb; by destruct (store t !! p) as [?|]; simplify_eq).
  pose proof (lookup_lt_Some _ _ _ Hsb) as Hlt.
  exists (set_store t (<[p := set_list b l']> (store t))).
  split.
  { simpl. rewrite Hi. simpl. rewrite Hp. simpl. rewrite Hb. simpl.
    unfold Bucket_Insert. by rewrite Ha. }
  split.
  { unfold Find.
    change (IndexOf (set_store t (<[p:=set_list b l']> (store t))) key)
      with (IndexOf t key).
    rewrite Hi. simpl. rewrite Hguard, Hp. simpl. unfold deref. simpl.
    rewrite list_lookup_insert_eq by done. simpl. unfold Bucket_Find. simpl.
    by rewrite Hfind, decide_True. }
  simpl. do 4 (split; [done|]). split; [by rewrite length_insert|].
  intros q bq Hq. destruct (decide (q = p)) as [->|Hne].
  - exists (set_list b l'). rewrite list_lookup_insert_eq by done.
    assert (bq = b) as -> by congruence. by simpl.
  - exists bq. by rewrite list_lookup_insert_ne.
Qed.

(** *** Termination of [Insert] *)

Lemma filter_all {A} (P : A -> Prop) `{!forall x, Decision (P x)} (l : list A) :
  (forall x, x ∈ l -> P x) -> filter P l = l.
Proof.
  induction l as [|x l IH]; intros Hl; [done|].
  rewrite filter_cons, decide_True by (apply Hl; left).
  f_equal. apply IH. intros y Hy. apply Hl. by right.
Qed.

Lemma filter_length_sublist {A} (P : A -> Prop) `{!forall x, Decision (P x)}
    (l1 l2 : list A) :
  l1 `sublist_of` l2 -> (length (filter P l1) <= length (filter P l2))%nat.
Proof.
  induction 1 as [|x l1 l2 _ IH|x l1 l2 _ IH]; [done| |];
    rewrite !filter_cons; destruct (decide (P x)); simpl; lia.
Qed.

Lemma mod_pow2_zero h g :
  0 <= g < 31 ->
  (forall d, 0 <= d < 31 -> Z.testbit h d = false) -> h mod 2 ^ g = 0.
Proof.
  intros Hg Hh. apply Z.bits_inj'. intros n Hn.
  rewrite Z.testbit_mod_pow2, Z.bits_0 by lia.
  destruct (n <? g) eqn:E; [|done]. apply Z.ltb_lt in E.
  rewrite Hh by lia. done.
Qed.

(** A full bucket at slot 0 whose entries, like the key, have hashes with
    31 zero low bits is never relieved by splitting. *)
Lemma Insert_stuck key value n : forall t b,
  dir_ t !! 0%nat = Some 0%nat -> store t !! 0%nat = Some b ->
  0 <= depth_ b <= global_depth_ t ->
  Bucket_Find b key = None -> IsFull b = true ->
  (forall d, 0 <= d < 31 -> Z.testbit (hash key) d = false) ->
  (forall e d, e ∈ list_ b -> 0 <= d < 31 ->
     Z.testbit (hash e.1) d = false) ->
  forall t', Insert n t key value <> Done t'.
Proof.
  induction n as [|n IH]; intros t b Hp Hb Hd Hfind Hfull Hk He t' Hi;
    [done|].
  pose proof (Insert_depth_in_range _ _ _ _ _ Hi) as Hg.
  assert (slot t key = 0%nat) as Hs
    by (unfold slot; by rewrite mod_pow2_zero by (done || lia)).
  assert (dir_ t !! slot t key = Some 0%nat) as Hp' by (by rewrite Hs).
  rewrite (Insert_step n t key value 0%nat b Hg Hp' Hb) in Hi.
  unfold Bucket_Insert in Hi. unfold Bucket_Find in Hfind.
  rewrite (proj2 (list_assign_None (list_ b) key value) Hfind), Hfull in Hi.
  unfold split_bucket, deref in Hi. rewrite Hb in Hi. simpl in Hi.
  set (t1 := if GetDepth b =? global_depth_ t then double_directory t else t)
    in Hi.
  assert (store t1 = store t) as Hst by (subst t1; by destruct (_ =? _)).
  assert (dir_ t1 !! 0%nat = Some 0%nat) as Hp1.
  { subst t1. destruct (_ =? _); [|done]. simpl.
    apply lookup_app_l_Some. done. }
  assert (depth_ b + 1 <= global_depth_ t1) as Hd1.
  { subst t1. unfold GetDepth.
    destruct (depth_ b =? global_depth_ t) eqn:E; simpl; [|apply Z.eqb_neq in E];
      lia. }
  assert (store t1 !! 0%nat = Some b) as Hb1 by (by rewrite Hst).
  rewrite (Redistribute_split_at t1 0%nat b Hb1) in Hi. simpl in Hi.
  assert (filter (λ e : K * V, Z.testbit (hash e.1) (depth_ b) = false)
            (list_ b) = list_ b) as Hstay.
  { apply filter_all. intros e Hin. apply He; [done|lia]. }
  pose proof (lookup_lt_Some _ _ _ Hb1) as Hlt.
  apply (IH (split_at t1 0%nat b)
            (mkBucket (size_ b) (depth_ b + 1) (list_ b))) in Hi; try done.
  - simpl. rewrite list_lookup_imap, Hp1. simpl.
    rewrite decide_False; [done|]. intros [_ Hbit].
    by rewrite Z.bits_0 in Hbit.
  - simpl. rewrite lookup_app_l by (by rewrite length_insert).
    rewrite list_lookup_insert_eq by done. by rewrite Hstay.
  - simpl. lia.
Qed.

(** While its entries cannot be told from the key at depth [D], a full bucket
    that lacks the key has a depth below [D]. *)
Lemma full_bucket_depth t key p b D :
  wf t -> dir_ t !! slot t key = Some p -> store t !! p = Some b ->
  Bucket_Find b key = None -> IsFull b = true ->
  0 <= D ->
  Z.of_nat (length (rivals D t key)) < bucket_size_ t ->
  depth_ b < D.
Proof.
  intros Hw Hp Hb Hfind Hfull HD Hr.
  destruct (Z.lt_ge_cases (depth_ b) D) as [|Hge]; [done|]. exfalso.
  unfold rivals, target in Hr. rewrite Hp, Hb in Hr.
  rewrite filter_all in Hr.
  - unfold IsFull in Hfull. apply Z.leb_le in Hfull.
    rewrite (wf_size t Hw p b Hb) in Hfull. lia.
  - intros e He. split.
    + intros Heq. apply list_find_None in Hfind. apply Hfind.
      rewrite <- Heq. by apply list_elem_of_fmap_2.
    + apply (agree_le D (depth_ b)); [lia|]. by eapply entry_agrees_key.
Qed.

Lemma Insert_terminates key value D m : forall t,
  wf t -> global_depth_ t <= 30 -> 0 <= D <= 30 ->
  (forall b, target t key = Some b -> D - depth_ b <= Z.of_nat m) ->
  Z.of_nat (length (rivals D t key)) < bucket_size_ t ->
  exists n t', (n <= m + 1)%nat /\ Insert n t key value = Done t'.
Proof.
  induction m as [|m IH]; intros t Hw Hg HD Hm Hr;
    destruct (target_Some t key Hw) as (p & b & Hp & Hb & Ht);
    pose proof (wf_depth0 t Hw) as Hg0;
    pose proof (wf_local t Hw _ _ _ Hp Hb) as Hd;
    pose proof (Insert_step 0 t key value p b ltac:(lia) Hp Hb) as Hstep;
    destruct (Bucket_Insert b key value) as [b' [|]] eqn:Hbi;
    try (exists 1%nat; eexists; split; [lia|exact Hstep]);
    destruct (Bucket_Insert_false _ _ _ _ Hbi) as (-> & Hfull & Hfind);
    pose proof (full_bucket_depth t key p b D Hw Hp Hb Hfind Hfull
                  ltac:(lia) Hr) as Hlt;
    specialize (Hm b Ht); [lia|].
  clear Hstep.
  destruct (split_bucket_spec t _ p b Hw Hp Hb)
    as (t1 & Hs & Hw1 & _ & Hg1 & Hbs1 & _ & Ht1).
  destruct (Ht1 key Hp) as (b1 & Hb1 & Hd1 & _ & Hsub).
  destruct (IH t1) as (n & t' & Hn & Hi); try done.
  - rewrite Hg1. destruct (depth_ b =? global_depth_ t) eqn:E; [|lia].
    apply Z.eqb_eq in E. lia.
  - intros b2 Hb2. assert (b2 = b1) as -> by congruence. lia.
  - rewrite Hbs1. unfold rivals in *. rewrite Hb1. rewrite Ht in Hr.
    pose proof (filter_length_sublist
                  (λ e : K * V, e.1 <> key ∧ agree D (hash e.1) (hash key))
                  _ _ Hsub). lia.
  - exists (S n), t'. split; [lia|].
    rewrite (Insert_step n t key value p b ltac:(lia) Hp Hb), Hbi, Hs.
    exact Hi.
Qed.

(** C7 (amended).  In every table reached from a new one, [Insert] returns
    whenever some depth [D] of at most 30 bits tells the key from all but
    fewer than [bucket_size] of the other entries of its bucket; it then
    makes at most [D + 1] attempts, that is at most [D] splits. *)
Theorem insert_terminates_when_separable bucket_size fuel cs t key value D :
  run fuel (ExtendibleHashTable_new bucket_size) cs = Done t ->
  0 <= D <= 30 ->
  Z.of_nat (length (rivals D t key)) < bucket_size ->
  exists n t', (n <= Z.to_nat D + 1)%nat /\ Insert n t key value = Done t'.
Proof.
  intros Hr HD Hriv.
  destruct (run_spec fuel cs _ t (new_wf bucket_size) ltac:(done) Hr)
    as (Hw & Hg & Hbs & _). simpl in Hg, Hbs.
  apply (Insert_terminates key value D (Z.to_nat D) t Hw); [lia|done| |lia].
  intros b Hb. destruct (target_Some t key Hw) as (p & b0 & Hp & Hb0 & Ht).
  assert (b0 = b) as -> by congruence.
  pose proof (wf_local t Hw _ _ _ Hp Hb0). lia.
Qed.

(** *** Doubling inside [Insert] *)

Lemma Bucket_Insert_miss b key value :
  Bucket_Find b key = None -> IsFull b = true ->
  Bucket_Insert b key value = (b, false).
Proof.
  unfold Bucket_Find, Bucket_Insert. intros Hf ->.
  by rewrite (proj2 (list_assign_None (list_ b) key value) Hf).
Qed.

(** C6 (amended).  In a table reached from a new one, take an [Insert] of a
    key that its bucket does not hold, the bucket being full with local depth
    equal to the global depth.  The directory is doubled before the split:
    the global depth grows by exactly one, the directory becomes twice as
    long, every old slot keeps its bucket and slot [i + old size] holds the
    same bucket address as slot [i], no bucket being copied; the call then
    increments the bucket's depth, redistributes on that doubled table and
    retries.  Whenever the call returns, the table it leaves has a global
    depth at least one larger and a directory at least twice as long; and it
    does return when some depth of at most 30 bits tells the key from all
    but fewer than [bucket_size] entries of its bucket. *)
Theorem insert_doubles_directory bucket_size fuel cs t key value index p b :
  run fuel (ExtendibleHashTable_new bucket_size) cs = Done t ->
  IndexOf t key = Done index ->
  at_ (dir_ t) index = Done p ->
  deref t p = Done b ->
  Bucket_Find b key = None ->
  IsFull b = true ->
  GetDepth b = global_depth_ t ->
  let t1 := double_directory t in
  global_depth_ t1 = global_depth_ t + 1
  /\ length (dir_ t1) = (2 * length (dir_ t))%nat
  /\ (forall i, (i < length (dir_ t))%nat ->
        dir_ t1 !! i = dir_ t !! i
        /\ dir_ t1 !! (i + length (dir_ t))%nat = dir_ t !! i)
  /\ store t1 = store t
  /\ (forall n,
        Insert (S n) t key value
        = bind (RedistributeBucket
                  (set_store t1 (<[p := IncrementDepth b]> (store t1))) p)
            (fun t2 => Insert n t2 key value))
  /\ (forall n t',
        Insert n t key value = Done t' ->
        global_depth_ t + 1 <= global_depth_ t'
        /\ (2 * length (dir_ t) <= length (dir_ t'))%nat)
  /\ (forall D,
        0 <= D <= 30 ->
        Z.of_nat (length (rivals D t key)) < bucket_size ->
        exists n t', Insert n t key value = Done t').
Proof.
  intros Hr Hi Hp Hb Hf Hfull Hd t1. subst t1.
  destruct (run_spec fuel cs _ t (new_wf bucket_size) ltac:(done) Hr)
    as (Hw & Hg & Hbs & _). simpl in Hg, Hbs.
  apply IndexOf_inv in Hi as [Hg0 ->]. rewrite at_of_nat in Hp.
  destruct (dir_ t !! slot t key) as [p0|] eqn:Hp0; [|done].
  injection Hp as ->. unfold deref in Hb.
  destruct (store t !! p) as [b0|] eqn:Hb0; [|done]. injection Hb as ->.
  pose proof (Bucket_Insert_miss b key value Hf Hfull) as Hmiss.
  unfold GetDepth in Hd.
  assert (forall n,
            Insert (S n) t key value
            = bind (split_bucket t p) (fun t2 => Insert n t2 key value))
    as Hstep
    by (intros n; by rewrite (Insert_step n t key value p b Hg0 Hp0 Hb0),
                     Hmiss).
  split; [done|]. split; [simpl; rewrite length_app; lia|]. split.
  { intros i Hlt. simpl. split; [by apply lookup_app_l|].
    rewrite lookup_app_r by lia. f_equal. lia. }
  split; [done|]. split.
  { intros n. rewrite Hstep. unfold split_bucket, deref. rewrite Hb0. simpl.
    unfold GetDepth. by apply Z.eqb_eq in Hd as ->. }
  split.
  - intros [|n] t' Hins; [done|]. rewrite Hstep in Hins.
    destruct (split_bucket_spec t _ p b Hw Hp0 Hb0)
      as (t2 & Hs & Hw2 & _ & Hg2 & _).
    rewrite Hs in Hins. simpl in Hins.
    destruct (Insert_spec key value n t2 t' Hw2 Hins) as (Hw' & _ & Hg' & _).
    apply Z.eqb_eq in Hd. rewrite Hd in Hg2.
    split; [lia|].
    pose proof (wf_length t Hw) as Hl. pose proof (wf_length t' Hw') as Hl'.
    assert (2 ^ (global_depth_ t + 1) <= 2 ^ global_depth_ t')
      by (apply Z.pow_le_mono_r; lia).
    rewrite Z.pow_add_r, Z.pow_1_r in * by lia. lia.
  - intros D HD Hriv.
    destruct (Insert_terminates key value D (Z.to_nat D) t Hw)
      as (n & t' & _ & Hins); [lia|done| |lia|by exists n, t'].
    intros b1 Hb1. destruct (target_Some t key Hw) as (q & b2 & Hq & Hb2 & Ht).
    assert (b2 = b1) as -> by congruence.
    pose proof (wf_local t Hw _ _ _ Hq Hb2). lia.
Qed.

End facts.

(** *** Instances for [ExtendibleHashTable<int, int>] *)

Lemma find_last_write_witness :
  exists t : ExtendibleHashTable Z Z,
    run 3 (ExtendibleHashTable_new 2) demo_calls = Done t
    /\ Find t 1 = Done (Some 11)
    /\ Find t 2 = Done None
    /\ Find t 3 = Done (Some 30).
Proof.
  eexists. split; [vm_compute; reflexivity|].
  split; [|split].
  - exact (find_last_write 2 3 demo_calls _ 1 eq_refl).
  - exact (find_last_write 2 3 demo_calls _ 2 eq_refl).
  - exact (find_last_write 2 3 demo_calls _ 3 eq_refl).
Defined.

Lemma directory_length_and_depth_witness :
  exists t : ExtendibleHashTable Z Z,
    run 3 (ExtendibleHashTable_new 2) demo_calls = Done t
    /\ global_depth_ t = 1
    /\ Z.of_nat (length (dir_ t)) = 2 ^ global_depth_ t
    /\ forall fuel' c t', step fuel' t c = Done t' ->
         global_depth_ t <= global_depth_ t'.
Proof.
  eexists. split; [vm_compute; reflexivity|]. split; [reflexivity|].
  apply (directory_length_and_depth 2 3 demo_calls). vm_compute. reflexivity.
Defined.

Lemma index_in_directory_witness :
  exists t : ExtendibleHashTable Z Z,
    run 3 (ExtendibleHashTable_new 2) demo_calls = Done t
    /\ exists index p b,
         IndexOf t 3 = Done index
         /\ 0 <= index < Z.of_nat (length (dir_ t))
         /\ (Z.of_nat (length (dir_ t)) <=? index) = false
         /\ at_ (dir_ t) index = Done p
         /\ deref t p = Done b.
Proof.
  eexists. split; [vm_compute; reflexivity|].
  apply (index_in_directory 2 3 demo_calls). vm_compute. reflexivity.
Defined.

(** C6 (as stated) fails.  In the table reached by [Insert(1, 10)] and
    [Insert(2, 20)] with [bucket_size = 2] the only bucket is full and its
    local depth equals the global depth, both 0; yet [Insert(1, 99)], for a
    key the bucket holds, returns with the global depth and the directory as
    they were: nothing is doubled. *)
Lemma insert_existing_key_keeps_directory :
  run 1 (ExtendibleHashTable_new 2) [CInsert 1 10; CInsert 2 20]
  = Done full_table
  /\ target full_table 1 = Some full_bucket
  /\ IsFull full_bucket = true
  /\ GetDepth full_bucket = global_depth_ full_table
  /\ forall n, exists t',
       Insert (S n) full_table 1 99 = Done t'
       /\ global_depth_ t' = global_depth_ full_table
       /\ dir_ t' = dir_ full_table
       /\ length (dir_ t') = 1%nat.
Proof.
  split; [vm_compute; reflexivity|]. do 3 (split; [reflexivity|]).
  intros n. eexists. split; [vm_compute; reflexivity|]. by split.
Qed.

Lemma insert_doubles_directory_witness :
  global_depth_ (double_directory full_table) = 1
  /\ dir_ (double_directory full_table) = [0%nat; 0%nat]
  /\ Insert 1 full_table 3 30 = OutOfFuel
  /\ (forall n t',
        Insert n full_table 3 30 = Done t' ->
        global_depth_ full_table + 1 <= global_depth_ t'
        /\ (2 * length (dir_ full_table) <= length (dir_ t'))%nat)
  /\ exists n t', Insert n full_table 3 30 = Done t'.
Proof.
  assert (run 1 (ExtendibleHashTable_new 2) [CInsert 1 10; CInsert 2 20]
          = Done full_table) as Hr by (vm_compute; reflexivity).
  pose proof (insert_doubles_directory 2 1 [CInsert 1 10; CInsert 2 20]
                full_table 3 30 0 0%nat full_bucket
                Hr eq_refl eq_refl eq_refl eq_refl eq_refl eq_refl)
    as (Hd & _ & _ & _ & _ & Hgrow & Hret).
  split; [exact Hd|]. split; [reflexivity|]. split; [reflexivity|].
  split; [exact Hgrow|].
  apply (Hret 1); [lia | vm_compute; reflexivity].
Defined.

Lemma insert_existing_overwrites_witness :
  exists t',
    Insert 1 full_table 1 99 = Done t'
    /\ Find t' 1 = Done (Some 99)
    /\ global_depth_ t' = 0
    /\ num_buckets_ t' = 1
    /\ dir_ t' = [0%nat].
Proof.
  assert (Find full_table 1 = Done (Some 10)) as Hfind
    by (vm_compute; reflexivity).
  destruct (insert_existing_overwrites 0 full_table 1 99 10 Hfind)
    as (t' & Hi & Hf & Hg & Hn & _ & Hd & _).
  exists t'. do 4 (split; [done|]). done.
Defined.

(** C7 (as stated) fails.  With [bucket_size = 0] every bucket is full, so
    [Insert(0, 0)] into a new table splits for ever; and with
    [bucket_size = 1], once key 0 is stored, [Insert] of the key -2^31, whose
    hash has the same 31 low bits, finds the bucket of key 0 full after every
    split.  Neither call returns, whatever the recursion budget. *)
Lemma insert_never_returns :
  (forall n t',
     Insert n (ExtendibleHashTable_new 0 : ExtendibleHashTable Z Z) 0 0
     <> Done t')
  /\ exists t1 : ExtendibleHashTable Z Z,
       run 1 (ExtendibleHashTable_new 1) [CInsert 0 7] = Done t1
       /\ forall n t', Insert n t1 (-2147483648) 8 <> Done t'.
Proof.
  assert (forall d, 0 <= d < 31 -> Z.testbit (hash 0) d = false) as H0
    by (intros d _; apply Z.bits_0).
  split.
  - intros n. apply (Insert_stuck 0 0 n _ (mkBucket 0 0 [])); try done.
    intros e d He. by apply elem_of_nil in He.
  - eexists. split; [vm_compute; reflexivity|].
    intros n. apply (Insert_stuck _ 8 n _ (mkBucket 1 0 [(0, 7)])); try done.
    + intros d Hd.
      change (hash (-2147483648)) with (8589934591 * 2 ^ 31).
      apply Z.mul_pow2_bits_low. lia.
    + intros e d He Hd. apply list_elem_of_singleton in He as ->. by apply H0.
Qed.

Lemma insert_terminates_when_separable_witness :
  run 1 (ExtendibleHashTable_new 2) [CInsert 1 10; CInsert 2 20]
  = Done full_table
  /\ Z.of_nat (length (rivals 1 full_table 3)) < 2
  /\ exists n t', (n <= 2)%nat /\ Insert n full_table 3 30 = Done t'.
Proof.
  split; [vm_compute; reflexivity|]. split; [vm_compute; reflexivity|].
  apply (insert_terminates_when_separable 2 1 [CInsert 1 10; CInsert 2 20]
           full_table 3 30 1);
    [vm_compute; reflexivity | lia | vm_compute; reflexivity].
Defined.

End EHTFacts.

(** ** Further properties of the LRU-K replacer *)

Module LRUKExtra.
Import LRUK LRUKFacts.

(** An invariant of single calls is an invariant of call sequences. *)
Lemma run_invariant (P : LRUKReplacer -> Prop) :
  (forall s c s', P s -> state_of (step s c) = Some s' -> P s') ->
  forall cs s s', P s -> state_of (run s cs) = Some s' -> P s'.
Proof.
  intros Hstep. induction cs as [|c cs IH]; intros s s' Hs H; simpl in H.
  - by inversion H; subst.
  - destruct (step s c) as [s1 []| s1 |] eqn:E; [| |done].
    + apply (IH s1); [|done]. eapply Hstep; [done|]. by rewrite E.
    + eapply Hstep; [done|]. by rewrite E.
Qed.

Lemma FindInternal_None s fid :
  FindInternal s fid = None <-> fid ∉ ids (frames_ s).
Proof.
  unfold FindInternal, ids. split.
  - intros Hf Hin. apply list_elem_of_fmap in Hin as (f & -> & Hin).
    by apply (find_from_None _ _ _ Hf f Hin).
  - intros Hnot. destruct (find_from (frames_ s) fid 0) as [j|] eqn:E; [|done].
    apply find_from_Some in E as (_ & f & Hf & <-). exfalso. apply Hnot.
    apply list_elem_of_fmap_2. by eapply list_elem_of_lookup_2.
Qed.

Lemma step_within_capacity num_frames k s c s' :
  within_capacity num_frames k s -> state_of (step s c) = Some s' ->
  within_capacity num_frames k s'.
Proof.
  intros (Hr & Hk & Hl) H.
  destruct c; simpl in H.
  - unfold RecordAccess, RecordAccessInternal in H. simpl in H.
    destruct (FindInternal _ fid) as [i|].
    + inversion H; subst; clear H. unfold within_capacity; simpl.
      by rewrite length_alter.
    + destruct (Z.of_nat (length (frames_ s)) <? replacer_size_ s) eqn:E;
        inversion H; subst; clear H; unfold within_capacity; simpl; [|done].
      apply Z.ltb_lt in E. rewrite length_alter, length_app. simpl.
      split; [done|]. split; [done|]. lia.
  - unfold SetEvictable, SetEvictableInternal in H.
    destruct (FindInternal s fid) as [i|]; [|by inversion H; subst].
    destruct (frames_ s !! i) as [f|]; [|done].
    inversion H; subst; clear H. unfold within_capacity; simpl.
    by rewrite length_insert.
  - unfold Remove, RemoveInternal in H.
    destruct (FindInternal s fid) as [i|]; [|by inversion H; subst].
    destruct (frames_ s !! i) as [f|] eqn:Hf; [|done].
    destruct (evictable f); inversion H; subst; clear H; [|done].
    unfold within_capacity; simpl.
    rewrite (length_delete _ _ (mk_is_Some _ _ Hf)).
    split; [done|]. split; [done|]. lia.
  - unfold Evict, EvictInternal in H.
    destruct (EvictScan _ _ _ _) as [[[d found] out]|]; [|done].
    destruct found; [|by inversion H; subst].
    unfold RemoveInternal in H. unfold FindInternal in H. simpl in H.
    destruct (find_from (frames_ s) out 0) as [i|]; [|by inversion H; subst].
    simpl in H.
    destruct (frames_ s !! i) as [f|] eqn:Hf; [|done].
    destruct (evictable f); inversion H; subst; clear H; [|done].
    unfold within_capacity; simpl.
    rewrite (length_delete _ _ (mk_is_Some _ _ Hf)).
    split; [done|]. split; [done|]. lia.
Qed.

(** X1. However the replacer is used, it never tracks more than
    [num_frames] frames, and the capacity and [k] given to the constructor
    never change. *)
Theorem tracked_within_capacity now num_frames k cs s :
  0 <= num_frames ->
  state_of (run (LRUKReplacer_new now num_frames k) cs) = Some s ->
  Z.of_nat (length (frames_ s)) <= num_frames
  /\ replacer_size_ s = num_frames /\ k_ s = k.
Proof.
  intros Hn Hr.
  apply (run_invariant (within_capacity num_frames k)
           (step_within_capacity num_frames k) cs _ s) in Hr.
  - destruct Hr as (? & ? & ?). done.
  - unfold within_capacity. simpl. lia.
Qed.

Lemma tracked_within_capacity_witness :
  state_of (run (LRUKReplacer_new 1700000000 2 3) revisit_calls) = Some revisit
  /\ Z.of_nat (length (frames_ revisit)) <= 2
  /\ replacer_size_ revisit = 2 /\ k_ revisit = 3.
Proof.
  split; [vm_compute; reflexivity|].
  apply (tracked_within_capacity 1700000000 2 3 revisit_calls);
    [lia | vm_compute; reflexivity].
Defined.

(** X2. However the replacer is used, no frame id is tracked twice. *)
Theorem tracked_ids_distinct now num_frames k cs s :
  state_of (run (LRUKReplacer_new now num_frames k) cs) = Some s ->
  NoDup (ids (frames_ s)).
Proof. intros Hr. apply (run_ids cs _ s) in Hr; [done|]. constructor. Qed.

Lemma tracked_ids_distinct_witness :
  state_of (run (LRUKReplacer_new 1700000000 2 1) twice_each_calls)
  = Some twice_each
  /\ NoDup (ids (frames_ twice_each)).
Proof.
  split; [vm_compute; reflexivity|].
  apply (tracked_ids_distinct 1700000000 2 1 twice_each_calls).
  vm_compute. reflexivity.
Defined.

(** *** [Evict] *)

Lemma EvictScan_skip now k fs st :
  (forall f, f ∈ fs -> evictable f = false) -> EvictScan now k fs st = Some st.
Proof.
  induction fs as [|f fs IH]; intros Hfs; [done|]. rewrite EvictScan_cons.
  assert (EvictVisit now k st f = Some st) as ->.
  { unfold EvictVisit. destruct st as [[d found] out].
    by rewrite (Hfs f (list_elem_of_here _ _)). }
  apply IH. intros g Hg. apply Hfs. by right.
Qed.

(** X3. With no evictable frame, [Evict] returns false, leaves [*frame_id]
    as the caller had it and changes nothing but the clock, which advances
    by one. *)
Theorem evict_nothing_evictable s out0 :
  (forall f, f ∈ frames_ s -> evictable f = false) ->
  Evict s out0
  = Ok (set_timestamp s (wrap64 (current_timestamp_ s + 1))) (out0, false).
Proof.
  intros Hs. unfold Evict, EvictInternal. simpl.
  rewrite EvictScan_skip; [done|]. intros f Hf. apply Hs.
  by apply elem_of_reverse.
Qed.

Lemma evict_nothing_evictable_witness :
  Evict pinned 5
  = Ok (set_timestamp pinned 1700000002) (5, false).
Proof.
  apply (evict_nothing_evictable pinned 5).
  intros f Hf. simpl in Hf. by apply list_elem_of_singleton in Hf as ->.
Defined.

Lemma EvictVisit_valid now k all st f st' :
  f ∈ all ->
  (forall a, a ∈ accesses f -> wrap64 (now - a) <> 0) ->
  scan_valid all st -> EvictVisit now k st f = Some st' ->
  scan_valid all st' /\ (st.1.2 = true \/ evictable f = true -> st'.1.2 = true).
Proof.
  intros Hin Hfresh Hv Hvisit. destruct st as [[d found] out].
  unfold EvictVisit in Hvisit. simpl.
  destruct (evictable f) eqn:Ev; simpl in Hvisit.
  2: { injection Hvisit as <-. split; [done|]. by intros [?|?]. }
  assert (scan_valid all (SIZE_MAX, true, frame_id f)
          /\ forall x, scan_valid all (x, true, frame_id f)) as [Hnew Hnew'].
  { split; [|intros x]; right; split; try done; by exists f. }
  destruct (Z.of_nat (length (accesses f)) <? k).
  { injection Hvisit as <-. by split. }
  destruct (accesses f !! _) as [a|] eqn:Ha; [|done].
  pose proof (Hfresh a (list_elem_of_lookup_2 _ _ _ Ha)) as Hne.
  pose proof (wrap64_range (now - a)) as Hr.
  destruct (wrap64 (now - a) >? d) eqn:Hc.
  - destruct (accesses f !! Z.to_nat (wrap64 (k - 1))) as [a'|]; [|done].
    injection Hvisit as <-. by split.
  - injection Hvisit as <-. simpl. rewrite Z.gtb_ltb in Hc.
    apply Z.ltb_ge in Hc.
    destruct Hv as [[-> ->]|[-> Hv]]; [lia|]. split; [|done]. by right.
Qed.

Lemma EvictScan_valid now k all fs : forall st st',
  (forall f, f ∈ fs -> f ∈ all) ->
  (forall f a, f ∈ fs -> a ∈ accesses f -> wrap64 (now - a) <> 0) ->
  scan_valid all st -> EvictScan now k fs st = Some st' ->
  scan_valid all st'
  /\ (st.1.2 = true \/ (exists f, f ∈ fs /\ evictable f = true) ->
      st'.1.2 = true).
Proof.
  induction fs as [|f fs IH]; intros st st' Hsub Hfresh Hv Hscan.
  - injection Hscan as <-. split; [done|].
    intros [?|(f & Hf & _)]; [done|]. by apply elem_of_nil in Hf.
  - rewrite EvictScan_cons in Hscan.
    destruct (EvictVisit now k st f) as [st1|] eqn:Hvisit; [|done].
    destruct (EvictVisit_valid now k all st f st1) as [Hv1 Hf1]; try done.
    { apply Hsub. left. }
    { intros a. apply Hfresh. left. }
    destruct (IH st1 st') as [Hv' Hf']; try done.
    { intros g Hg. apply Hsub. by right. }
    { intros g a Hg. apply Hfresh. by right. }
    split; [done|]. intros Hor. apply Hf'.
    destruct Hor as [?|(g & [->|Hg]%elem_of_cons & Hev)].
    + left. apply Hf1. by left.
    + left. apply Hf1. by right.
    + right. by exists g.
Qed.

(** X4. When some frame is evictable, [k >= 1], no id is tracked twice and
    no recorded timestamp equals the clock value of the call, [Evict] returns
    true with the id of a tracked evictable frame; it removes exactly that
    frame's record, decrements the size and advances the clock, and the id
    is no longer tracked afterwards. *)
Theorem evict_returns_evictable s out0 :
  NoDup (ids (frames_ s)) ->
  1 <= k_ s ->
  (forall f a, f ∈ frames_ s -> a ∈ accesses f ->
     wrap64 (wrap64 (current_timestamp_ s + 1) - a) <> 0) ->
  (exists f, f ∈ frames_ s /\ evictable f = true) ->
  exists f pre post,
    frames_ s = pre ++ f :: post
    /\ evictable f = true
    /\ (frame_id f ∉ ids (pre ++ post))
    /\ Evict s out0
       = Ok {| current_timestamp_ := wrap64 (current_timestamp_ s + 1);
               curr_size_ := wrap64 (curr_size_ s - 1);
               replacer_size_ := replacer_size_ s;
               k_ := k_ s;
               frames_ := pre ++ post |} (frame_id f, true).
Proof.
  intros Hnd Hk Hfresh (g & Hg & Hev).
  destruct (EvictScan_defined (wrap64 (current_timestamp_ s + 1)) (k_ s)
              (reverse (frames_ s)) (0, false, out0) Hk) as [[[d found] out] Hscan].
  assert (scan_valid (frames_ s) (0, false, out0)) as Hv0 by (by left).
  destruct (EvictScan_valid _ _ (frames_ s) _ _ _
              (fun f Hf => proj1 (elem_of_reverse f (frames_ s)) Hf)
              (fun f a Hf => Hfresh f a (proj1 (elem_of_reverse f _) Hf))
              Hv0 Hscan) as [Hv Hfound].
  simpl in Hfound.
  assert (found = true) as ->.
  { apply Hfound. right. exists g. split; [by apply elem_of_reverse|done]. }
  destruct Hv as [[? _]|[_ (f & Hf & Hfev & <-)]]; [done|].
  apply list_elem_of_split in Hf as (pre & post & Hfs).
  assert (forall h, h ∈ pre ++ post -> frame_id h <> frame_id f) as Hother.
  { intros h Hh Heq. rewrite Hfs in Hnd. unfold ids in Hnd.
    rewrite fmap_app, fmap_cons in Hnd.
    apply NoDup_app in Hnd as (_ & Hpre & Hpost%NoDup_cons).
    destruct Hpost as [Hpost _].
    apply elem_of_app in Hh as [Hh|Hh].
    - apply (Hpre (frame_id h)); [by apply list_elem_of_fmap_2|].
      rewrite Heq. left.
    - apply Hpost. rewrite <- Heq. by apply list_elem_of_fmap_2. }
  exists f, pre, post. split; [done|]. split; [done|]. split.
  { intros Hin. apply list_elem_of_fmap in Hin as (h & Heq & Hh).
    by apply (Hother h Hh). }
  unfold Evict, EvictInternal. simpl. rewrite Hscan.
  unfold RemoveInternal, FindInternal, set_timestamp. simpl. rewrite Hfs.
  rewrite find_from_first.
  - simpl. rewrite list_lookup_middle by done. rewrite Hfev.
    by rewrite delete_middle.
  - intros h Hh. apply Hother. apply elem_of_app. by left.
Qed.

Lemma evict_returns_evictable_witness :
  exists f pre post,
    frames_ twice_each = pre ++ f :: post
    /\ evictable f = true
    /\ (frame_id f ∉ ids (pre ++ post))
    /\ Evict twice_each 0
       = Ok {| current_timestamp_ := wrap64 (current_timestamp_ twice_each + 1);
               curr_size_ := wrap64 (curr_size_ twice_each - 1);
               replacer_size_ := replacer_size_ twice_each;
               k_ := k_ twice_each;
               frames_ := pre ++ post |} (frame_id f, true).
Proof.
  apply (evict_returns_evictable twice_each 0).
  - apply (run_ids twice_each_calls (LRUKReplacer_new 1700000000 2 1));
      [constructor | vm_compute; reflexivity].
  - simpl. lia.
  - intros f a Hf Ha. simpl in Hf.
    repeat (apply elem_of_cons in Hf as [->|Hf]; simpl in Ha;
            [repeat (apply elem_of_cons in Ha as [->|Ha]; [by vm_compute|]);
             by apply elem_of_nil in Ha|]).
    by apply elem_of_nil in Hf.
  - eexists. split; [left|reflexivity].
Defined.

(** *** Calls on tracked and untracked ids *)

Lemma find_from_ids fs gs fid j :
  ids fs = ids gs -> find_from fs fid j = find_from gs fid j.
Proof.
  revert gs j. induction fs as [|f fs IH]; intros [|g gs] j Hids; try done.
  unfold ids in Hids. rewrite !fmap_cons in Hids. injection Hids as Hf Hrest.
  simpl. rewrite Hf. destruct (frame_id g =? fid); [done|]. by apply IH.
Qed.

Lemma ids_set_evictable fs i f b :
  fs !! i = Some f -> ids (<[i := with_evictable b f]> fs) = ids fs.
Proof.
  intros Hf. unfold ids. rewrite list_fmap_insert. simpl.
  apply list_insert_id. by rewrite list_lookup_fmap, Hf.
Qed.

(** X5. [SetEvictable] is idempotent: repeating a call that returned, with
    the same flag, returns again and changes neither a frame nor the size. *)
Theorem set_evictable_idempotent s fid b s1 :
  SetEvictable s fid b = Ok s1 tt -> SetEvictable s1 fid b = Ok s1 tt.
Proof.
  unfold SetEvictable, SetEvictableInternal. intros H.
  destruct (FindInternal s fid) as [i|] eqn:Hfind; [|done].
  destruct (frames_ s !! i) as [f|] eqn:Hf; [|done].
  injection H as <-. pose proof (lookup_lt_Some _ _ _ Hf) as Hlt.
  unfold FindInternal in *. simpl.
  rewrite (find_from_ids _ (frames_ s)) by (by apply ids_set_evictable).
  rewrite Hfind, list_lookup_insert_eq by done. simpl.
  rewrite list_insert_insert_eq.
  by destruct b; simpl; rewrite ?andb_false_r.
Qed.

Lemma set_evictable_idempotent_witness :
  SetEvictable pinned 7 true
  = Ok {| current_timestamp_ := 1700000001;
          curr_size_ := 1;
          replacer_size_ := 2;
          k_ := 2;
          frames_ := [mkFrameInfo 7 [1700000001] true] |} tt
  /\ SetEvictable
       {| current_timestamp_ := 1700000001;
          curr_size_ := 1;
          replacer_size_ := 2;
          k_ := 2;
          frames_ := [mkFrameInfo 7 [1700000001] true] |} 7 true
     = Ok {| current_timestamp_ := 1700000001;
             curr_size_ := 1;
             replacer_size_ := 2;
             k_ := 2;
             frames_ := [mkFrameInfo 7 [1700000001] true] |} tt.
Proof.
  split; [reflexivity|].
  apply (set_evictable_idempotent pinned 7 true). reflexivity.
Defined.

(** X6. For an id that is not tracked, [SetEvictable] fails its assertion
    with the state untouched, and [Remove] returns without doing anything. *)
Theorem untracked_id_calls s fid b :
  fid ∉ ids (frames_ s) ->
  SetEvictable s fid b = Abort s /\ Remove s fid = Ok s tt.
Proof.
  intros Hf%FindInternal_None.
  unfold SetEvictable, SetEvictableInternal, Remove, RemoveInternal.
  by rewrite Hf.
Qed.

Lemma untracked_id_calls_witness :
  SetEvictable pinned 8 true = Abort pinned /\ Remove pinned 8 = Ok pinned tt.
Proof.
  apply (untracked_id_calls pinned 8 true). simpl.
  intros Hin. by apply list_elem_of_singleton in Hin.
Defined.

(** X7. [Remove] of a tracked frame: when the frame is evictable its record
    is erased and the size decremented, the other records keeping their
    order; when it is not evictable the call fails its assertion with the
    state untouched. *)
Theorem remove_tracked s pre f post :
  frames_ s = pre ++ f :: post ->
  NoDup (ids (frames_ s)) ->
  Remove s (frame_id f)
  = if evictable f
    then Ok {| current_timestamp_ := current_timestamp_ s;
               curr_size_ := wrap64 (curr_size_ s - 1);
               replacer_size_ := replacer_size_ s;
               k_ := k_ s;
               frames_ := pre ++ post |} tt
    else Abort s.
Proof.
  intros Hfs Hnd. unfold Remove, RemoveInternal, FindInternal. rewrite Hfs.
  rewrite find_from_first.
  - simpl. rewrite list_lookup_middle by done.
    destruct (evictable f); [|done]. unfold set_frames.
    by rewrite delete_middle.
  - intros g Hg Heq. rewrite Hfs in Hnd. unfold ids in Hnd.
    rewrite fmap_app in Hnd. apply NoDup_app in Hnd as (_ & Hnd & _).
    apply (Hnd (frame_id g)); [by apply list_elem_of_fmap_2|].
    rewrite Heq. simpl. left.
Qed.

Lemma remove_tracked_witness :
  Remove pinned 7 = Abort pinned
  /\ Remove revisit 2
     = Ok {| current_timestamp_ := 1700000003;
             curr_size_ := 1;
             replacer_size_ := 2;
             k_ := 3;
             frames_ := [mkFrameInfo 1 [1700000001; 1700000003] true] |} tt.
Proof.
  split.
  - apply (remove_tracked pinned [] (mkFrameInfo 7 [1700000001] false) []);
      [reflexivity|]. simpl. apply NoDup_singleton.
  - apply (remove_tracked revisit
             [mkFrameInfo 1 [1700000001; 1700000003] true]
             (mkFrameInfo 2 [1700000002] true) []); [reflexivity|].
    apply (run_ids revisit_calls (LRUKReplacer_new 1700000000 2 3));
      [constructor | vm_compute; reflexivity].
Defined.

(** X8. [RecordAccess] of an untracked id below capacity advances the clock
    and appends a record for the id that is not evictable and holds that one
    timestamp; the other records and the size stay. *)
Theorem record_access_new_frame s fid :
  fid ∉ ids (frames_ s) ->
  Z.of_nat (length (frames_ s)) < replacer_size_ s ->
  RecordAccess s fid
  = Ok {| current_timestamp_ := wrap64 (current_timestamp_ s + 1);
          curr_size_ := curr_size_ s;
          replacer_size_ := replacer_size_ s;
          k_ := k_ s;
          frames_ := frames_ s
                     ++ [mkFrameInfo fid [wrap64 (current_timestamp_ s + 1)]
                           false] |} tt.
Proof.
  intros Hf%FindInternal_None Hlt.
  unfold RecordAccess, RecordAccessInternal, FindInternal in *. simpl.
  rewrite Hf. apply Z.ltb_lt in Hlt as ->. unfold set_frames. simpl.
  do 2 f_equal. rewrite length_app. simpl.
  replace (length (frames_ s) + 1 - 1)%nat with (length (frames_ s) + 0)%nat
    by lia.
  by rewrite alter_app_r.
Qed.

Lemma record_access_new_frame_witness :
  RecordAccess pinned 8
  = Ok {| current_timestamp_ := 1700000002;
          curr_size_ := 0;
          replacer_size_ := 2;
          k_ := 2;
          frames_ := [mkFrameInfo 7 [1700000001] false;
                      mkFrameInfo 8 [1700000002] false] |} tt.
Proof.
  apply (record_access_new_frame pinned 8); [|simpl; lia]. simpl.
  intros Hin. by apply list_elem_of_singleton in Hin.
Defined.

(** X9. [RecordAccess] of a tracked id never fails, full replacer or not: it
    advances the clock and appends the new timestamp to that frame's
    history, leaving its flag, the other records and the size as they
    were. *)
Theorem record_access_tracked s pre f post :
  frames_ s = pre ++ f :: post ->
  NoDup (ids (frames_ s)) ->
  RecordAccess s (frame_id f)
  = Ok {| current_timestamp_ := wrap64 (current_timestamp_ s + 1);
          curr_size_ := curr_size_ s;
          replacer_size_ := replacer_size_ s;
          k_ := k_ s;
          frames_ := pre
                     ++ push_access (wrap64 (current_timestamp_ s + 1)) f
                     :: post |} tt.
Proof.
  intros Hfs Hnd. unfold RecordAccess, RecordAccessInternal, FindInternal.
  simpl. rewrite Hfs. rewrite find_from_first.
  - unfold set_frames. simpl. do 2 f_equal.
    replace (length pre) with (length pre + 0)%nat by lia.
    by rewrite alter_app_r.
  - intros g Hg Heq. rewrite Hfs in Hnd. unfold ids in Hnd.
    rewrite fmap_app in Hnd. apply NoDup_app in Hnd as (_ & Hnd & _).
    apply (Hnd (frame_id g)); [by apply list_elem_of_fmap_2|].
    rewrite Heq. simpl. left.
Qed.

Lemma record_access_tracked_witness :
  RecordAccess twice_each 2
  = Ok {| current_timestamp_ := 1700000005;
          curr_size_ := 2;
          replacer_size_ := 2;
          k_ := 1;
          frames_ := [mkFrameInfo 1 [1700000001; 1700000003] true;
                      mkFrameInfo 2 [1700000002; 1700000004; 1700000005]
                        true] |} tt.
Proof.
  apply (record_access_tracked twice_each
           [mkFrameInfo 1 [1700000001; 1700000003] true]
           (mkFrameInfo 2 [1700000002; 1700000004] true) []); [reflexivity|].
  apply (run_ids twice_each_calls (LRUKReplacer_new 1700000000 2 1));
    [constructor | vm_compute; reflexivity].
Defined.

(** *** Indexing the access history *)




Lemma EvictScan_zero_k now fs : forall st,
  (exists f, f ∈ fs /\ evictable f = true) ->
  (forall f, f ∈ fs -> Z.of_nat (length (accesses f)) < 2 ^ 64) ->
  EvictScan now 0 fs st = None.
Proof.
  induction fs as [|f fs IH]; intros st (g & Hg & Hev) Hlen.
  - by apply elem_of_nil in Hg.
  - rewrite EvictScan_cons. destruct st as [[d found] out].
    unfold EvictVisit. destruct (evictable f) eqn:Ev; simpl.
    + assert ((Z.of_nat (length (accesses f)) <? 0) = false) as ->
        by (apply Z.ltb_ge; lia).
      rewrite Z.sub_0_r, wrap64_small, Nat2Z.id
        by (split; [lia|apply Hlen; left]).
      by rewrite (proj2 (lookup_ge_None (accesses f) _)) by lia.
    + apply IH.
      * exists g. split; [|done].
        apply elem_of_cons in Hg as [->|Hg]; [congruence|done].
      * intros h Hh. apply Hlen. by right.
Qed.

(** X11. With [k = 0] and an evictable frame, [Evict] reads
    [accesses[accesses.size()]], one past the end of the history. *)
Theorem evict_zero_k_out_of_range s out0 :
  k_ s = 0 ->
  (exists f, f ∈ frames_ s /\ evictable f = true) ->
  (forall f, f ∈ frames_ s -> Z.of_nat (length (accesses f)) < 2 ^ 64) ->
  Evict s out0 = Undefined.
Proof.
  intros Hk (f & Hf & Hev) Hlen. unfold Evict, EvictInternal. simpl.
  rewrite Hk, EvictScan_zero_k; [done| |].
  - exists f. split; [by apply elem_of_reverse|done].
  - intros g Hg. apply Hlen. by apply elem_of_reverse.
Qed.

Lemma evict_zero_k_out_of_range_witness : Evict zero_k 0 = Undefined.
Proof.
  apply (evict_zero_k_out_of_range zero_k 0); [reflexivity| |].
  - eexists. split; [left|reflexivity].
  - intros f Hf. simpl in Hf. apply list_elem_of_singleton in Hf as ->.
    simpl. lia.
Defined.

End LRUKExtra.

(** ** Further properties of the extendible hash table *)

Module EHTExtra.
Import EHT EHTFacts.

Section more.
Context {K V : Type} `{EqDecision K} `{Hash K}.
Implicit Types (l : list (K * V)) (b : Bucket K V) (t : ExtendibleHashTable K V).
Implicit Types (key k : K) (value v : V).

(** *** Buckets on their own *)

(** X12. [Bucket::Insert] followed by [Bucket::Find]: when the insert
    returns true the key is found with the new value and every other key is
    found as before, the depth and capacity being untouched; when it returns
    false the bucket is unchanged, full, and does not hold the key. *)
Theorem bucket_insert_then_find b key value :
  match Bucket_Insert b key value with
  | (b', true) =>
      Bucket_Find b' key = Some value
      /\ (forall k, k <> key -> Bucket_Find b' k = Bucket_Find b k)
      /\ depth_ b' = depth_ b /\ size_ b' = size_ b
  | (b', false) => b' = b /\ Bucket_Find b key = None /\ IsFull b = true
  end.
Proof.
  destruct (Bucket_Insert b key value) as [b' [|]] eqn:Hi.
  - destruct (Bucket_Insert_true _ _ _ _ Hi) as (Hd & Hs & Hf & _).
    split; [by rewrite Hf, decide_True|]. split; [|done].
    intros k Hk. by rewrite Hf, decide_False.
  - destruct (Bucket_Insert_false _ _ _ _ Hi) as (-> & Hfull & Hf). done.
Qed.

(** X13. [Bucket::Remove] on a bucket without duplicate keys returns true
    exactly when the key was there; afterwards the key is not found and every
    other key is found as before. *)
Theorem bucket_remove_then_find b key b' r :
  NoDup (list_ b).*1 ->
  Bucket_Remove b key = (b', r) ->
  (r = true <-> exists v, Bucket_Find b key = Some v)
  /\ Bucket_Find b' key = None
  /\ forall k, k <> key -> Bucket_Find b' k = Bucket_Find b k.
Proof.
  intros Hnd Hr.
  destruct (Bucket_Remove_spec b key b' r Hr Hnd) as (_ & _ & _ & Hf & ->).
  split; [|split].
  - rewrite bool_decide_eq_true. unfold is_Some. done.
  - by rewrite Hf, decide_True.
  - intros k Hk. by rewrite Hf, decide_False.
Qed.

(** *** Reached tables *)

Lemma split_bucket_eq t p b :
  store t !! p = Some b ->
  split_bucket t p
  = Done (split_at (if depth_ b =? global_depth_ t then double_directory t
                    else t) p b).
Proof.
  intros Hb. unfold split_bucket, deref. rewrite Hb. simpl. unfold GetDepth.
  rewrite <- Redistribute_split_at; [done|]. by destruct (_ =? _).
Qed.

Lemma fits_update t p b b' :
  fits t -> store t !! p = Some b ->
  Z.of_nat (length (list_ b')) <= size_ b' ->
  fits (set_store t (<[p := b']> (store t))).
Proof.
  intros Hfit Hb Hb' q bq Hq. simpl in Hq.
  destruct (insert_lookup_cases _ _ _ _ _ _ Hb Hq) as [[-> ->]|[_ Hq']];
    [done|by eapply Hfit].
Qed.

Lemma fits_split_at t p b :
  wf t -> fits t -> store t !! p = Some b -> fits (split_at t p b).
Proof.
  intros Hw Hfit Hb q bq Hq.
  pose proof (Hfit p b Hb) as Hlen. pose proof (wf_size t Hw p b Hb) as Hs.
  destruct (split_at_store t p b q bq Hb Hq)
    as [[_ Hq']|[Hsz (P & HP & Hl)]]; [by eapply Hfit|].
  rewrite Hl. pose proof (length_filter P (list_ b)).
  destruct Hsz as [-> | ->]; lia.
Qed.

Lemma Insert_fits key value n : forall t t',
  wf t -> fits t -> Insert n t key value = Done t' -> fits t'.
Proof.
  induction n as [|n IH]; intros t t' Hw Hfit Hi; [done|].
  pose proof (Insert_depth_in_range _ _ _ _ _ Hi) as Hg.
  destruct (target_Some t key Hw) as (p & b & Hp & Hb & _).
  rewrite (Insert_step n t key value p b Hg Hp Hb) in Hi.
  pose proof (Hfit p b Hb) as Hlen.
  unfold Bucket_Insert in Hi.
  destruct (list_assign (list_ b) key value) as [l'|] eqn:Ha.
  - injection Hi as <-. apply (fits_update t p b _ Hfit Hb). simpl.
    destruct (list_assign_Some _ _ _ _ Ha) as (Hk & _).
    apply (f_equal length) in Hk. rewrite !length_fmap in Hk. lia.
  - unfold IsFull in Hi.
    destruct (size_ b <=? Z.of_nat (length (list_ b))) eqn:E.
    + destruct (split_bucket_spec t _ p b Hw Hp Hb) as (t1 & Hs & Hw1 & _).
      rewrite Hs in Hi. simpl in Hi. apply (IH t1 t' Hw1); [|done].
      rewrite (split_bucket_eq t p b Hb) in Hs. injection Hs as <-.
      destruct (depth_ b =? global_depth_ t).
      * apply fits_split_at; [by apply double_wf|done|done].
      * by apply fits_split_at.
    + injection Hi as <-. apply (fits_update t p b _ Hfit Hb). simpl.
      apply Z.leb_gt in E. rewrite length_app. simpl. lia.
Qed.

Lemma step_fits fuel t c t' :
  wf t -> fits t -> step fuel t c = Done t' -> fits t'.
Proof.
  intros Hw Hfit Hs. destruct c as [key value|key|key]; simpl in Hs.
  - by eapply Insert_fits.
  - destruct (Find t key); [|done..]. simpl in Hs. by injection Hs as <-.
  - destruct (Remove t key) as [[t1 r]| |] eqn:Hr; [|done..].
    simpl in Hs. injection Hs as <-. unfold Remove in Hr.
    destruct (IndexOf t key) as [index| |]; [|done..]. simpl in Hr.
    destruct (_ <=? index); [by injection Hr as <- _|].
    destruct (at_ (dir_ t) index) as [p| |]; [|done..]. simpl in Hr.
    destruct (deref t p) as [b| |] eqn:Hb; [|done..]. simpl in Hr.
    unfold deref in Hb. destruct (store t !! p) as [b0|] eqn:Hb0; [|done].
    injection Hb as ->.
    unfold Bucket_Remove in Hr.
    destruct (list_erase (list_ b) key) as [l'|] eqn:He;
      injection Hr as <- _; apply (fits_update t p b _ Hfit Hb0);
      pose proof (Hfit p b Hb0) as Hlen; [|done]. simpl.
    assert (length l' <= length (list_ b))%nat; [|lia].
    clear -He. revert l' He.
    induction (list_ b) as [|[k v] l IH]; intros l' He; simpl in He; [done|].
    destruct (decide (k = key)); [injection He as <-; simpl; lia|].
    destruct (list_erase l key) as [l''|]; [|done]. injection He as <-.
    simpl. specialize (IH l'' eq_refl). lia.
Qed.

Lemma run_fits fuel cs : forall t t',
  wf t -> global_depth_ t < 31 -> fits t -> run fuel t cs = Done t' ->
  fits t'.
Proof.
  induction cs as [|c cs IH]; intros t t' Hw Hg Hfit Hr; simpl in Hr.
  - by injection Hr as <-.
  - destruct (step fuel t c) as [t1| |] eqn:Hs; [|done..]. simpl in Hr.
    destruct (step_spec fuel t c t1 Hw Hg Hs) as (Hw1 & Hg1 & _).
    apply (IH t1 t' Hw1); [lia| |done].
    exact (step_fits fuel t c t1 Hw Hfit Hs).
Qed.

(** X14. In every table reached from a new one with [bucket_size >= 0], each
    bucket has capacity [bucket_size] and holds at most that many entries,
    and no key occurs twice in a bucket. *)
Theorem buckets_within_capacity bucket_size fuel cs t p b :
  0 <= bucket_size ->
  run fuel (ExtendibleHashTable_new bucket_size) cs = Done t ->
  store t !! p = Some b ->
  size_ b = bucket_size
  /\ Z.of_nat (length (list_ b)) <= bucket_size
  /\ NoDup (list_ b).*1.
Proof.
  intros Hbs Hr Hb.
  destruct (run_spec fuel cs _ t (new_wf bucket_size) ltac:(done) Hr)
    as (Hw & _ & Hsz & _). simpl in Hsz.
  assert (fits t) as Hfit.
  { apply (run_fits fuel cs _ t (new_wf bucket_size)); [done| |done].
    intros [|q] bq Hq; [|done]. injection Hq as <-. simpl. lia. }
  pose proof (wf_size t Hw p b Hb) as Hs. pose proof (Hfit p b Hb).
  split; [congruence|]. split; [lia|]. exact (wf_nodup t Hw p b Hb).
Qed.

Lemma Remove_returns t key :
  wf t -> global_depth_ t < 31 -> exists t' r, Remove t key = Done (t', r).
Proof.
  intros Hw Hg. pose proof (wf_depth0 t Hw).
  destruct (target_Some t key Hw) as (p & b & Hp & Hb & _).
  pose proof (slot_lt t key Hw) as Hlt.
  unfold Remove. rewrite IndexOf_Done by lia. simpl.
  assert ((Z.of_nat (length (dir_ t)) <=? Z.of_nat (slot t key)) = false)
    as -> by (apply Z.leb_gt; lia).
  rewrite at_of_nat, Hp. simpl. unfold deref. rewrite Hb. simpl.
  destruct (Bucket_Remove b key). by do 2 eexists.
Qed.

(** X15. In every table reached from a new one, [Remove] returns, and it
    returns true exactly when [Find] would have found the key; afterwards the
    key is not found, every other key is found as before, and the global
    depth, the directory and the bucket count are unchanged: nothing is
    merged or shrunk. *)
Theorem remove_reports_presence bucket_size fuel cs t key :
  run fuel (ExtendibleHashTable_new bucket_size) cs = Done t ->
  exists t' r,
    Remove t key = Done (t', r)
    /\ (r = true <-> exists v, Find t key = Done (Some v))
    /\ Find t' key = Done None
    /\ (forall k, k <> key -> Find t' k = Find t k)
    /\ GetGlobalDepth t' = GetGlobalDepth t
    /\ dir_ t' = dir_ t
    /\ GetNumBuckets t' = GetNumBuckets t.
Proof.
  intros Hr. destruct (reachable_wf _ _ _ _ Hr) as [Hw Hg].
  destruct (Remove_returns t key Hw ltac:(lia)) as (t' & r & Hrm).
  destruct (Remove_spec t key t' r Hw Hrm)
    as (Hw' & Hpk & -> & Hg' & _ & Hd & _ & Hn).
  exists t', (bool_decide (is_Some (peek t key))). split; [done|].
  rewrite (Find_peek t key Hw) by lia.
  rewrite (Find_peek t' key Hw') by lia.
  split; [|split; [|split]].
  - rewrite bool_decide_eq_true. unfold is_Some.
    split; intros [v Hv]; exists v; congruence.
  - by rewrite Hpk, decide_True.
  - intros k Hk. rewrite (Find_peek t k Hw) by lia.
    rewrite (Find_peek t' k Hw') by lia. by rewrite Hpk, decide_False.
  - done.
Qed.

(** X16. In every table reached from a new one, [GetLocalDepth] returns for
    each index below the directory size a depth between 0 and the global
    depth; for any other [int] index, negative ones included, [dir_.at]
    throws. *)
Theorem local_depth_in_range bucket_size fuel cs t dir_index :
  run fuel (ExtendibleHashTable_new bucket_size) cs = Done t ->
  - 2 ^ 31 <= dir_index < 2 ^ 31 ->
  if decide (0 <= dir_index < Z.of_nat (length (dir_ t)))
  then exists d, GetLocalDepth t dir_index = Done d
                 /\ 0 <= d <= GetGlobalDepth t
  else GetLocalDepth t dir_index = Fault.
Proof.
  intros Hr Hint. destruct (reachable_wf _ _ _ _ Hr) as [Hw Hg].
  pose proof (wf_length t Hw) as Hl.
  assert (2 ^ global_depth_ t <= 2 ^ 30) as Hpow
    by (apply Z.pow_le_mono_r; lia).
  unfold GetLocalDepth, at_. destruct (decide _) as [Hin|Hout].
  - rewrite Z.mod_small by lia.
    destruct (lookup_lt_is_Some_2 (dir_ t) (Z.to_nat dir_index)) as [p Hp];
      [lia|].
    rewrite Hp. simpl. destruct (wf_live t Hw _ _ Hp) as [b Hb].
    unfold deref. rewrite Hb. simpl. exists (depth_ b). split; [done|].
    exact (wf_local t Hw _ p b Hp Hb).
  - rewrite (proj2 (lookup_ge_None (dir_ t) _)); [done|].
    destruct (Z.lt_ge_cases dir_index 0) as [Hneg|Hpos].
    + pose proof (Z.mod_pos_bound dir_index (2 ^ 64) ltac:(lia)).
      assert (dir_index mod 2 ^ 64 = dir_index + 2 ^ 64) as ->; [|lia].
      symmetry. apply (Z.mod_unique _ _ (-1)); lia.
    + rewrite Z.mod_small by lia. lia.
Qed.

(** X17. In every table reached from a new one, [Insert] splits only when
    it must: if the key's bucket holds the key or has room, the call returns
    at once with the value stored, and the global depth, the directory, the
    bucket count and the number of allocated buckets are unchanged. *)
Theorem insert_without_split bucket_size fuel cs t key value b n :
  run fuel (ExtendibleHashTable_new bucket_size) cs = Done t ->
  target t key = Some b ->
  is_Some (Bucket_Find b key) \/ IsFull b = false ->
  exists t',
    Insert (S n) t key value = Done t'
    /\ Find t' key = Done (Some value)
    /\ (forall k, k <> key -> Find t' k = Find t k)
    /\ GetGlobalDepth t' = GetGlobalDepth t
    /\ dir_ t' = dir_ t
    /\ GetNumBuckets t' = GetNumBuckets t
    /\ length (store t') = length (store t).
Proof.
  intros Hr Ht Hroom. destruct (reachable_wf _ _ _ _ Hr) as [Hw Hg].
  destruct (target_Some t key Hw) as (p & b0 & Hp & Hb & Ht0).
  assert (b0 = b) as -> by congruence.
  destruct (Bucket_Insert b key value) as [b' [|]] eqn:Hbi.
  - destruct (Insert_hit t key value p b b' Hw Hp Hb Hbi) as [Hw' Hpk].
    exists (set_store t (<[p := b']> (store t))).
    split; [by rewrite (Insert_step n t key value p b Hg Hp Hb), Hbi|].
    rewrite (Find_peek _ key Hw') by (simpl; lia).
    split; [by rewrite Hpk, decide_True|]. split.
    + intros k Hk. rewrite (Find_peek _ k Hw') by (simpl; lia).
      rewrite (Find_peek t k Hw) by lia. by rewrite Hpk, decide_False.
    + simpl. by rewrite length_insert.
  - exfalso. destruct (Bucket_Insert_false _ _ _ _ Hbi) as (_ & Hfull & Hf).
    destruct Hroom as [[v Hv]|Hnf]; congruence.
Qed.

End more.

(** *** Instances for [ExtendibleHashTable<int, int>] *)

Lemma insert_without_split_witness :
  exists t',
    Insert 1 demo_table 2 22 = Done t'
    /\ Find t' 2 = Done (Some 22)
    /\ (forall k, k <> 2 -> Find t' k = Find demo_table k)
    /\ GetGlobalDepth t' = GetGlobalDepth demo_table
    /\ dir_ t' = dir_ demo_table
    /\ GetNumBuckets t' = GetNumBuckets demo_table
    /\ length (store t') = length (store demo_table).
Proof.
  apply (insert_without_split 2 3 demo_calls demo_table 2 22
           (mkBucket 2 1 []) 0);
    [vm_compute; reflexivity | reflexivity | right; reflexivity].
Defined.

Lemma bucket_remove_then_find_witness :
  Bucket_Remove full_bucket 1 = (mkBucket 2 0 [(2, 20)], true)
  /\ (true = true <-> exists v, Bucket_Find full_bucket 1 = Some v)
  /\ Bucket_Find (mkBucket 2 0 [(2, 20)]) 1 = None
  /\ forall k, k <> 1 ->
       Bucket_Find (mkBucket 2 0 [(2, 20)]) k = Bucket_Find full_bucket k.
Proof.
  split; [reflexivity|].
  apply (bucket_remove_then_find full_bucket 1); [|reflexivity].
  simpl. apply NoDup_cons. split; [|apply NoDup_singleton].
  intros Hin. by apply list_elem_of_singleton in Hin.
Defined.

Lemma buckets_within_capacity_witness :
  size_ (mkBucket 2 1 [(1, 11); (3, 30)] : Bucket Z Z) = 2
  /\ Z.of_nat (length [(1, 11); (3, 30)]) <= 2
  /\ NoDup [1; 3].
Proof.
  apply (buckets_within_capacity 2 3 demo_calls demo_table 1%nat
           (mkBucket 2 1 [(1, 11); (3, 30)]));
    [lia | vm_compute; reflexivity | reflexivity].
Defined.

Lemma remove_reports_presence_witness :
  exists t' r,
    Remove demo_table 3 = Done (t', r)
    /\ (r = true <-> exists v, Find demo_table 3 = Done (Some v))
    /\ Find t' 3 = Done None
    /\ (forall k, k <> 3 -> Find t' k = Find demo_table k)
    /\ GetGlobalDepth t' = GetGlobalDepth demo_table
    /\ dir_ t' = dir_ demo_table
    /\ GetNumBuckets t' = GetNumBuckets demo_table.
Proof.
  apply (remove_reports_presence 2 3 demo_calls demo_table 3).
  vm_compute. reflexivity.
Defined.

Lemma local_depth_in_range_witness :
  (exists d, GetLocalDepth demo_table 1 = Done d
             /\ 0 <= d <= GetGlobalDepth demo_table)
  /\ GetLocalDepth demo_table (-1) = Fault.
Proof.
  assert (- 2 ^ 31 <= 1 < 2 ^ 31 /\ - 2 ^ 31 <= -1 < 2 ^ 31) as [H1 H2]
    by lia.
  assert (run 3 (ExtendibleHashTable_new 2) demo_calls = Done demo_table)
    as Hr by (vm_compute; reflexivity).
  split.
  - exact (local_depth_in_range 2 3 demo_calls demo_table 1 Hr H1).
  - exact (local_depth_in_range 2 3 demo_calls demo_table (-1) Hr H2).
Defined.

End EHTExtra.
